(** * Productivity Launcher: the tile model, the persistent store and the theme resolver

    A shallow embedding of the logic of the launcher's single source file
    (the React component [ProductivityLauncher] and its helpers) and the
    properties of its specification that were checked against it.

    Conventions.
    - A JS string whose code units are all below 256 is a Rocq [string]:
      the character of code [n] stands for the code unit [n], so that the
      codes from 128 on are the letters and signs of Latin-1.  The string
      functions below ([toLowerCase], [trim], [includes], [split], [slice])
      follow the JS ones on every such string.  Text with larger code units
      is a list of code units, in the module [Wide].
    - A value that may be [undefined] or [null] is an [option].
    - A plain object that is read by a computed name ([THEMES],
      [SURPRISE_PALETTES]) is the list of its own properties; a read that
      finds none of them goes on to [Object.prototype].
    - [localStorage] is a finite map from strings to strings with the room
      the browser grants it; the style of the document root is a finite map
      from strings to strings.
    - A call that can throw returns an [outcome]; [try_catch] is the
      [try { .. } catch { .. }] of the source.
    - [Math.random()] is an argument of the function that draws.
    - [JSON.parse] and [JSON.stringify] are parameters of the persistent
      store; an instance at the type of strings runs the examples. *)

From Stdlib Require Import ZArith QArith Qround Lia Ascii String.
From Stdlib Require Import DecimalString DecimalPos DecimalN.
From stdpp Require Import base option list gmap strings.

Open Scope string_scope.

(** ** The platform *)

Module JS.

(** The result of a call that may throw. *)
Inductive outcome (A : Type) : Type :=
| Return (a : A)
| Throw.
Arguments Return {A} a.
Arguments Throw {A}.

Definition bind {A B} (c : outcome A) (k : A -> outcome B) : outcome B :=
  match c with
  | Return a => k a
  | Throw => Throw
  end.

(** [try { body } catch { handler }] *)
Definition try_catch {A} (body handler : outcome A) : outcome A :=
  match body with
  | Return a => Return a
  | Throw => handler
  end.

(** Truthiness of a string: every string but the empty one. *)
Definition truthy (s : string) : bool :=
  match s with
  | EmptyString => false
  | String _ _ => true
  end.

(** [a || b] on strings. *)
Definition or_else (a b : string) : string := if truthy a then a else b.

(** *** Characters *)

Definition code (c : ascii) : N := Ascii.N_of_ascii c.

Definition is_upper (c : ascii) : bool := ((65 <=? code c) && (code c <=? 90))%N.
Definition is_lower (c : ascii) : bool := ((97 <=? code c) && (code c <=? 122))%N.
Definition is_digit (c : ascii) : bool := ((48 <=? code c) && (code c <=? 57))%N.

(** White space of [String.prototype.trim] below 256: tab, line feed,
    vertical tab, form feed, carriage return, space and the no-break space
    U+00A0. *)
Definition is_space (c : ascii) : bool :=
  ((9 <=? code c) && (code c <=? 13) || (code c =? 32) || (code c =? 160))%N.

(** The letters that [toLowerCase] changes below 256: [A] to [Z] and the
    capitals of Latin-1, U+00C0 to U+00DE without the multiplication sign
    U+00D7.  Each has its small letter 32 places on. *)
Definition is_capital (c : ascii) : bool :=
  (is_upper c ||
   (192 <=? code c) && (code c <=? 222) && negb (code c =? 215))%N.

Definition lower_char (c : ascii) : ascii :=
  if is_capital c then Ascii.ascii_of_N (code c + 32) else c.

(** *** Strings *)

(** [s.toLowerCase()] *)
Fixpoint toLowerCase (s : string) : string :=
  match s with
  | EmptyString => EmptyString
  | String c r => String (lower_char c) (toLowerCase r)
  end.

Fixpoint trimStart (s : string) : string :=
  match s with
  | EmptyString => EmptyString
  | String c r => if is_space c then trimStart r else s
  end.

(** Drops the white space at the end: a character is kept when it is not
    white space or when something is kept after it. *)
Fixpoint trimEnd (s : string) : string :=
  match s with
  | EmptyString => EmptyString
  | String c r =>
      match trimEnd r with
      | EmptyString => if is_space c then EmptyString else String c EmptyString
      | r' => String c r'
      end
  end.

(** [s.trim()] *)
Definition trim (s : string) : string := trimEnd (trimStart s).

(** [s.startsWith(p)] *)
Fixpoint startsWith (p s : string) : bool :=
  match p, s with
  | EmptyString, _ => true
  | String _ _, EmptyString => false
  | String a p', String b s' => if decide (a = b) then startsWith p' s' else false
  end.

(** [s.includes(q)]: [q] starts at some position of [s]. *)
Fixpoint includes (s q : string) : bool :=
  startsWith q s ||
  match s with
  | EmptyString => false
  | String _ r => includes r q
  end.

(** [s.split(sep)] for a separator of one character: the pieces between
    the separators, one piece more than there are separators. *)
Fixpoint split (sep : ascii) (s : string) : list string :=
  match s with
  | EmptyString => [EmptyString]
  | String c r =>
      if decide (c = sep) then EmptyString :: split sep r
      else match split sep r with
           | [] => [String c EmptyString]
           | p :: ps => String c p :: ps
           end
  end.

(** [s.slice(from, to)] for [0 <= from <= to]. *)
Definition slice (from to : nat) (s : string) : string :=
  String.substring from (Nat.min to (String.length s) - from) s.

(** [String(x)] for [x] a string or [undefined] ([None]). *)
Definition String_of (x : option string) : string := default "undefined" x.

(** [arr[i]] for a number [i] that is an integer: [undefined] outside the
    array. *)
Definition array_get {A} (arr : list A) (i : Z) : option A :=
  if (i <? 0)%Z then None else arr !! Z.to_nat i.

(** *** Plain objects *)

(** A plain object is the list of its own properties in insertion order.
    Reading a property that is not its own continues in [Object.prototype]. *)
Definition Object_prototype : list string :=
  ["constructor"; "__defineGetter__"; "__defineSetter__"; "hasOwnProperty";
   "__lookupGetter__"; "__lookupSetter__"; "isPrototypeOf";
   "propertyIsEnumerable"; "toString"; "valueOf"; "__proto__";
   "toLocaleString"].

Inductive property (A : Type) : Type :=
| Own (a : A)                (* an own property and its value *)
| Inherited (name : string)  (* a member of [Object.prototype] *)
| Undefined.
Arguments Own {A} a.
Arguments Inherited {A} name.
Arguments Undefined {A}.

Fixpoint own_property {A} (obj : list (string * A)) (name : string) : option A :=
  match obj with
  | [] => None
  | (k, v) :: rest => if decide (k = name) then Some v else own_property rest name
  end.

(** [obj[name]] *)
Definition get_property {A} (obj : list (string * A)) (name : string) : property A :=
  match own_property obj name with
  | Some v => Own v
  | None => if decide (name ∈ Object_prototype) then Inherited name else Undefined
  end.

(** Truthiness of what [obj[name]] gives when the own properties hold
    objects: an object or a function is truthy, [undefined] is not. *)
Definition property_truthy {A} (p : property A) : bool :=
  match p with
  | Own _ | Inherited _ => true
  | Undefined => false
  end.

(** [Object.keys(obj)] *)
Definition Object_keys {A} (obj : list (string * A)) : list string := obj.*1.

End JS.
Export JS.

(** ** localStorage *)

Module Storage.

(** The items of the storage area and the room the browser grants it,
    counted in code units of keys and values. *)
Record Storage : Type := {
  slots : gmap string string;
  quota : N
}.

Definition size_of (s : string) : N := N.of_nat (String.length s).

Definition usage (m : gmap string string) : N :=
  map_fold (fun k v n => size_of k + size_of v + n)%N 0%N m.

Definition within_quota (st : Storage) : Prop := (usage (slots st) <= quota st)%N.

(** [localStorage.getItem(key)]: [null] ([None]) when the key is absent. *)
Definition getItem (st : Storage) (key : string) : option string :=
  slots st !! key.

(** [localStorage.setItem(key, value)]: throws (QuotaExceededError) when the
    new items do not fit. *)
Definition setItem (st : Storage) (key value : string) : outcome Storage :=
  let m := <[key := value]> (slots st) in
  if decide (usage m <= quota st)%N
  then Return {| slots := m; quota := quota st |}
  else Throw.

End Storage.
Export Storage.

(** ** Theming *)

Module Theme.

Record ThemeTokens : Type := {
  bg : string;
  fg : string;
  card : string;
  muted : string;
  accent : string;
  ring : string
}.

Definition SURPRISE_PALETTES : list (string * ThemeTokens) :=
  [ ("ocean",
     {| bg := "#0b1220"; fg := "#e7f5ff"; card := "#0f1a2b";
        muted := "#8fb7e1"; accent := "#3ba3ff"; ring := "#79b8ff" |});
    ("forest",
     {| bg := "#0f1512"; fg := "#e8ffef"; card := "#112019";
        muted := "#86c19b"; accent := "#2fd477"; ring := "#7ce9a6" |});
    ("sunset",
     {| bg := "#1b1312"; fg := "#fff0e6"; card := "#221817";
        muted := "#ffb199"; accent := "#ff7a59"; ring := "#ffbfa8" |}) ].

Definition THEMES : list (string * ThemeTokens) :=
  [ ("light",
     {| bg := "#f7f7fb"; fg := "#0f1222"; card := "#ffffff";
        muted := "#6b7280"; accent := "#6366f1"; ring := "#a5b4fc" |});
    ("dark",
     {| bg := "#0c0f16"; fg := "#e5e7eb"; card := "#111827";
        muted := "#9ca3af"; accent := "#22d3ee"; ring := "#67e8f9" |});
    ("grafit",
     {| bg := "#0e0e10"; fg := "#e8e8ea"; card := "#151518";
        muted := "#9a9aa2"; accent := "#c0c0c8"; ring := "#d6d6de" |}) ].

(** The custom properties of [document.documentElement.style]. *)
Abbreviation Style := (gmap string string).

(** The slot of the sticky palette name. *)
Abbreviation sticky_key := "launcher.surpriseName".

(** [root.style.setProperty(name, value)] *)
Definition setProperty (name : string) (value : option string) (style : Style) : Style :=
  <[name := String_of value]> style.

(** [tokens.f], where [tokens] is what a property read gave: a member of
    [Object.prototype] has none of the six fields, and reading a field of
    [undefined] throws. *)
Definition field (f : ThemeTokens -> string) (tokens : property ThemeTokens)
  : outcome (option string) :=
  match tokens with
  | Own t => Return (Some (f t))
  | Inherited _ => Return None
  | Undefined => Throw
  end.

(** The six [setProperty] calls that end [applyTheme]. *)
Definition write_tokens (tokens : property ThemeTokens) (style : Style) : outcome Style :=
  bind (field bg tokens) (fun v1 => let style := setProperty "--bg" v1 style in
  bind (field fg tokens) (fun v2 => let style := setProperty "--fg" v2 style in
  bind (field card tokens) (fun v3 => let style := setProperty "--card" v3 style in
  bind (field muted tokens) (fun v4 => let style := setProperty "--muted" v4 style in
  bind (field accent tokens) (fun v5 => let style := setProperty "--accent" v5 style in
  bind (field ring tokens) (fun v6 => let style := setProperty "--ring" v6 style in
  Return style)))))).

(** The name [applyTheme] settles on for the surprise theme: the saved one
    when it is truthy and reads a truthy property of the palettes,
    otherwise [names[Math.floor(random * names.length)]]. *)
Definition surprise_pick (savedSurprise : option string) (random : Q) : option string :=
  let names := Object_keys SURPRISE_PALETTES in
  match savedSurprise with
  | Some saved =>
      if truthy saved && property_truthy (get_property SURPRISE_PALETTES saved)
      then Some saved
      else array_get names (Qfloor (random * inject_Z (Z.of_nat (length names))))
  | None => array_get names (Qfloor (random * inject_Z (Z.of_nat (length names))))
  end.

(** [applyTheme(theme)], with the value [Math.random()] would give, on the
    storage and the root style; it gives both back. *)
Definition applyTheme (theme : string) (random : Q) (st : Storage) (style : Style)
  : outcome (Storage * Style) :=
  let savedSurprise := getItem st "launcher.surpriseName" in
  if decide (theme = "surprise") then
    let pick := surprise_pick savedSurprise random in
    bind (setItem st "launcher.surpriseName" (String_of pick)) (fun st' =>
    let tokens := get_property SURPRISE_PALETTES (String_of pick) in
    bind (write_tokens tokens style) (fun style' => Return (st', style')))
  else
    let tokens := get_property THEMES theme in
    bind (write_tokens tokens style) (fun style' => Return (st, style')).

(** The tokens read back from the six custom properties of a style. *)
Definition applied (style : Style) : option ThemeTokens :=
  b ← style !! "--bg"; f ← style !! "--fg"; c ← style !! "--card";
  m ← style !! "--muted"; a ← style !! "--accent"; r ← style !! "--ring";
  Some {| bg := b; fg := f; card := c; muted := m; accent := a; ring := r |}.

(** The update [next] of [ThemeToggle] passes to [setTheme]. *)
Definition next (prev : string) : string :=
  if decide (prev = "light") then "dark"
  else if decide (prev = "dark") then "grafit"
  else if decide (prev = "grafit") then "surprise"
  else "light".

(** The update [onKey] passes to [setTheme]. *)
Definition onKey_next (prev : string) : string :=
  if decide (prev = "light") then "dark"
  else if decide (prev = "dark") then "grafit"
  else if decide (prev = "grafit") then "surprise"
  else "light".

(** What the user does that the component listens to. *)
Inductive event : Type :=
| KeyDown (key : string)      (* a key pressed in the window *)
| ToggleClick                 (* the theme button *)
| OtherClick.                 (* any other button *)

(** The theme selection after an event.  [onKey] focuses the search box on
    a slash, cycles the theme on a key whose lower case is t and opens the
    help on a question mark; the button's [onClick] cycles the theme;
    nothing else calls [setTheme]. *)
Definition on_event (e : event) (theme : string) : string :=
  match e with
  | KeyDown key =>
      if decide (key = "/") then theme
      else if decide (toLowerCase key = "t") then onKey_next theme
      else if decide (key = "?") then theme
      else theme
  | ToggleClick => next theme
  | OtherClick => theme
  end.

Definition ThemeName : list string := ["light"; "dark"; "grafit"; "surprise"].

(** One event takes the selection [s] to [t]. *)
Definition theme_step (s t : string) : Prop := exists e, on_event e s = t.

End Theme.
Export Theme.

(** ** The persistent store *)

Module Persist.

Section usePersistentState.

(** The type of the bound value and the two JSON functions at that type:
    [JSON.parse(raw) as T], which throws on a text that is not JSON, and
    [JSON.stringify(value)], which is [undefined] ([None]) for a value that
    has no JSON text and throws on a cyclic one. *)
Context {T : Type}.
Variable JSON_parse : string -> outcome T.
Variable JSON_stringify : T -> outcome (option string).

(** The initializer [usePersistentState] passes to [useState]: it runs once,
    when the component mounts, and gives the first value of the state. *)
Definition usePersistentState_initial (st : Storage) (key : string) (initial : T)
  : outcome T :=
  try_catch
    (match getItem st key with
     | Some raw => if truthy raw then JSON_parse raw else Return initial
     | None => Return initial
     end)
    (Return initial).

(** The effect of [usePersistentState]: it runs after the first render and
    after every render that changed [key] or [value]. *)
Definition usePersistentState_effect (st : Storage) (key : string) (value : T)
  : outcome Storage :=
  try_catch
    (bind (JSON_stringify value) (fun text => setItem st key (String_of text)))
    (Return st).

End usePersistentState.

(** *** JSON at the type of strings

    The theme selection and the sticky palette name are strings.
    [JSON.stringify] writes a string between double quotes, with a backslash
    before a double quote and before a backslash and the short or the
    four-digit escape for a control character. *)

Definition dquote : ascii := "034"%char.
Definition backslash : ascii := "092"%char.

Definition hex_digit (n : N) : ascii :=
  Ascii.ascii_of_N (if (n <? 10)%N then 48 + n else 87 + n).

Definition escape_char (c : ascii) : string :=
  if decide (c = dquote) then String backslash (String dquote EmptyString)
  else if decide (c = backslash) then String backslash (String backslash EmptyString)
  else if (code c =? 8)%N then String backslash "b"
  else if (code c =? 9)%N then String backslash "t"
  else if (code c =? 10)%N then String backslash "n"
  else if (code c =? 12)%N then String backslash "f"
  else if (code c =? 13)%N then String backslash "r"
  else if (code c <? 32)%N then
    String backslash
      ("u00" +:+ String (hex_digit (code c / 16))
                   (String (hex_digit (code c mod 16)) EmptyString))
  else String c EmptyString.

Fixpoint escape (s : string) : string :=
  match s with
  | EmptyString => EmptyString
  | String c r => escape_char c +:+ escape r
  end.

(** A text between double quotes. *)
Definition quoted (s : string) : string :=
  String dquote (s +:+ String dquote EmptyString).

Definition JSON_stringify_string (s : string) : outcome (option string) :=
  Return (Some (quoted (escape s))).

(** The two JSON functions at the type [string | undefined]:
    [JSON.stringify(undefined)] is [undefined]. *)
Definition JSON_stringify_optional (x : option string) : outcome (option string) :=
  match x with
  | Some s => JSON_stringify_string s
  | None => Return None
  end.

(** [JSON.parse] of a text that holds one string.  A text that is not JSON
    throws.  (A JSON text that holds a value of another kind does not give
    a string: it is outside this instance, which answers [Throw] for it, as it
    does for an escape that names a code unit of 256 or more.) *)

Definition hex_value (c : ascii) : option N :=
  if is_digit c then Some (code c - 48)%N
  else if ((97 <=? code c) && (code c <=? 102))%N then Some (code c - 87)%N
  else if ((65 <=? code c) && (code c <=? 70))%N then Some (code c - 55)%N
  else None.

Definition unescape_short (e : ascii) : option ascii :=
  if decide (e = dquote) then Some dquote
  else if decide (e = backslash) then Some backslash
  else if decide (e = "/"%char) then Some "/"%char
  else if decide (e = "b"%char) then Some "008"%char
  else if decide (e = "t"%char) then Some "009"%char
  else if decide (e = "n"%char) then Some "010"%char
  else if decide (e = "f"%char) then Some "012"%char
  else if decide (e = "r"%char) then Some "013"%char
  else None.

Definition unescape_u (h1 h2 h3 h4 : ascii) : option ascii :=
  a ← hex_value h1; b ← hex_value h2; c ← hex_value h3; d ← hex_value h4;
  let n := (((a * 16 + b) * 16 + c) * 16 + d)%N in
  if (n <? 256)%N then Some (Ascii.ascii_of_N n) else None.

(** The characters of a string literal after its opening quote: the string
    they denote and the text after the closing quote. *)
Fixpoint parse_chars (s : string) : option (string * string) :=
  match s with
  | EmptyString => None
  | String c r =>
      if decide (c = dquote) then Some (EmptyString, r)
      else if decide (c = backslash) then
        match r with
        | String e r1 =>
            if decide (e = "u"%char) then
              match r1 with
              | String h1 (String h2 (String h3 (String h4 r2))) =>
                  x ← unescape_u h1 h2 h3 h4;
                  '(content, rest) ← parse_chars r2;
                  Some (String x content, rest)
              | _ => None
              end
            else
              x ← unescape_short e;
              '(content, rest) ← parse_chars r1;
              Some (String x content, rest)
        | EmptyString => None
        end
      else if (code c <? 32)%N then None
      else '(content, rest) ← parse_chars r; Some (String c content, rest)
  end.

(** White space of the JSON grammar. *)
Definition is_json_space (c : ascii) : bool :=
  ((code c =? 32) || (code c =? 9) || (code c =? 10) || (code c =? 13))%N.

Fixpoint skip_space (s : string) : string :=
  match s with
  | EmptyString => EmptyString
  | String c r => if is_json_space c then skip_space r else s
  end.

Definition JSON_parse_string (raw : string) : outcome string :=
  match skip_space raw with
  | String c r =>
      if decide (c = dquote) then
        match parse_chars r with
        | Some (content, rest) =>
            match skip_space rest with
            | EmptyString => Return content
            | String _ _ => Throw
            end
        | None => Throw
        end
      else Throw
  | EmptyString => Throw
  end.

Definition JSON_parse_optional (raw : string) : outcome (option string) :=
  bind (JSON_parse_string raw) (fun s => Return (Some s)).

End Persist.
Export Persist.

(** ** Tiles *)

Module Tiles.

(** [subtitle] and [tags] are optional: [None] is [undefined]. *)
Record Tile : Type := {
  id : string;
  title : string;
  subtitle : option string;
  url : string;
  icon : string;
  color : string;
  tags : option (list string)
}.

Definition DEFAULT_TILES : list Tile :=
  [ {| id := "calendar"; title := "Calendar App";
       subtitle := Some "Plan & collaborate";
       url := "https://richardsipos.github.io/Calendar-App/";
       icon := "CalendarClock"; color := "from-indigo-500 to-blue-500";
       tags := Some ["work"; "planning"] |};
    {| id := "dashboard"; title := "Daily Dashboard";
       subtitle := Some "Track your day";
       url := "https://example.com/dashboard";
       icon := "Gauge"; color := "from-emerald-500 to-teal-500";
       tags := Some ["habits"; "health"] |};
    {| id := "todo"; title := "Todo HQ";
       subtitle := Some "Capture & do";
       url := "https://richardsipos.github.io/Tick-And-Top";
       icon := "CheckSquare"; color := "from-amber-500 to-orange-500";
       tags := Some ["tasks"] |} ].

(** *** The search filter *)

(** [Boolean(x)] for [x] a string or [undefined]. *)
Definition Boolean (x : option string) : bool :=
  match x with
  | Some s => truthy s
  | None => false
  end.

(** [[t.title, t.subtitle, ...(t.tags || [])]] *)
Definition searchable (t : Tile) : list (option string) :=
  Some (title t) :: subtitle t :: (Some <$> default [] (tags t)).

(** The predicate [filtered] passes to [tiles.filter]: [.filter(Boolean)]
    keeps the strings that are not empty, [.some(..)] asks for one whose
    lower case includes [q]. *)
Definition matches (q : string) (t : Tile) : bool :=
  existsb (fun x => includes (toLowerCase (default EmptyString x)) q)
          (List.filter Boolean (searchable t)).

(** The memo [filtered] of the component. *)
Definition filtered (tiles : list Tile) (query : string) : list Tile :=
  if negb (truthy (trim query)) then tiles
  else
    let q := toLowerCase query in
    List.filter (matches q) tiles.

(** *** Ids *)

Definition is_slug_char (c : ascii) : bool := is_lower c || is_digit c.

(** [.replace(/[^a-z0-9]+/g, "-")]: every run of other characters becomes
    one dash; [in_run] tells that the run has its dash already. *)
Fixpoint dash_runs (in_run : bool) (s : string) : string :=
  match s with
  | EmptyString => EmptyString
  | String c r =>
      if is_slug_char c then String c (dash_runs false r)
      else if in_run then dash_runs true r
      else String "-" (dash_runs true r)
  end.

Definition strip_leading_dash (s : string) : string :=
  match s with
  | String "-" r => r
  | _ => s
  end.

Fixpoint strip_trailing_dash (s : string) : string :=
  match s with
  | EmptyString => EmptyString
  | String c r =>
      match r with
      | EmptyString => if decide (c = "-"%char) then EmptyString else s
      | String _ _ => String c (strip_trailing_dash r)
      end
  end.

(** [slugify(s)].  The NFKD normalisation and the removal of the combining
    marks change no character below 128, and this function follows the
    source on text of such characters; a character from 128 on becomes a
    dash here, also where the source keeps the letter or the digit that the
    normalisation finds in it.  The last [replace], of
    [/(^-|-$)+/g] by the empty string, takes a dash off the start and a dash
    off the end. *)
Definition slugify (s : string) : string :=
  strip_trailing_dash (strip_leading_dash (dash_runs false (toLowerCase s))).

(** *** Managing the tiles *)

(** The state of the add form in [ManageTilesModal]. *)
Record Form : Type := {
  f_title : string;
  f_url : string;
  f_subtitle : string;
  f_icon : string;
  f_color : string;
  f_tags : string
}.

(** The id of a new tile; [random36] is [Math.random().toString(36)]. *)
Definition new_id (f : Form) (random36 : string) : string :=
  slugify (or_else (f_title f) "tile-") +:+ "-" +:+ slice 2 6 random36.

(** The tile [addTile] builds from the form. *)
Definition new_tile (f : Form) (random36 : string) : Tile :=
  {| id := new_id f random36;
     title := or_else (f_title f) "Untitled";
     subtitle := if truthy (f_subtitle f) then Some (f_subtitle f) else None;
     url := or_else (f_url f) "https://example.com";
     icon := f_icon f;
     color := f_color f;
     tags := Some (List.filter truthy (trim <$> split "," (f_tags f))) |}.

(** [addTile]: the new list [local] and the form, whose four text fields
    are cleared. *)
Definition addTile (f : Form) (random36 : string) (prev : list Tile)
  : list Tile * Form :=
  (new_tile f random36 :: prev,
   {| f_title := EmptyString; f_url := EmptyString; f_subtitle := EmptyString;
      f_icon := f_icon f; f_color := f_color f; f_tags := EmptyString |}).

(** [remove(id)] *)
Definition remove (i : string) (prev : list Tile) : list Tile :=
  List.filter (fun t => negb (bool_decide (id t = i))) prev.

(** The direction of a move: the type [-1 | 1]. *)
Inductive Dir : Type := Up | Down.

Definition dir_value (d : Dir) : Z :=
  match d with
  | Up => -1
  | Down => 1
  end.

(** [move(i, dir)], for the index [i] of a row of the list.  The result is
    [None] when [i] is no index of [prev] while [i + dir] is one: the source
    then stores [undefined] in the array, which no list of tiles holds. *)
Definition move (i : nat) (dir : Dir) (prev : list Tile) : option (list Tile) :=
  let next := prev in
  let j := (Z.of_nat i + dir_value dir)%Z in
  if decide (j < 0 \/ j >= Z.of_nat (length next))%Z then Some prev
  else
    match next !! i, next !! Z.to_nat j with
    | Some a, Some b => Some (<[Z.to_nat j := a]> (<[i := b]> next))
    | _, _ => None
    end.

(** The [onSave] the component gives to [EditTileModal]. *)
Definition onSave (updated : Tile) (prev : list Tile) : list Tile :=
  (fun t => if decide (id t = id updated) then updated else t) <$> prev.

End Tiles.
Export Tiles.

(** ** The words of the specification *)

Module Words.

(** Every character of [s] satisfies [p]. *)
Fixpoint all_chars (p : ascii -> bool) (s : string) : bool :=
  match s with
  | EmptyString => true
  | String c r => p c && all_chars p r
  end.

(** Empty or made of white space only; the no-break space is white
    space. *)
Definition blank (s : string) : Prop := all_chars is_space s = true.

(** [q] occurs in [s]. *)
Definition substring_of (q s : string) : Prop :=
  exists pre post, s = pre +:+ q +:+ post.

(** The same character, or a capital letter of Basic Latin or of Latin-1
    and its small letter. *)
Definition same_letter (a b : ascii) : Prop :=
  a = b \/
  (is_capital a = true /\ code b = (code a + 32)%N) \/
  (is_capital b = true /\ code a = (code b + 32)%N).

(** The same text when the case of the letters is left aside. *)
Inductive same_text : string -> string -> Prop :=
| same_text_nil : same_text EmptyString EmptyString
| same_text_cons a b s t :
    same_letter a b -> same_text s t -> same_text (String a s) (String b t).



(** [selects P l l']: [l'] is [l] without the elements that fail [P], in the
    order of [l]. *)
Inductive selects {A : Type} (P : A -> Prop) : list A -> list A -> Prop :=
| selects_nil : selects P [] []
| selects_keep x l l' : P x -> selects P l l' -> selects P (x :: l) (x :: l')
| selects_drop x l l' : ~ P x -> selects P l l' -> selects P (x :: l) l'.

(** The pieces with the separator between them. *)
Fixpoint join (sep : ascii) (pieces : list string) : string :=
  match pieces with
  | [] => EmptyString
  | p :: ps =>
      match ps with
      | [] => p
      | _ :: _ => p +:+ String sep (join sep ps)
      end
  end.

(** The character [c] does not occur in [s]. *)
Definition free_of (c : ascii) (s : string) : Prop :=
  all_chars (fun x => bool_decide (x <> c)) s = true.

(** [m] is [s] without the white space at its two ends. *)
Definition trimmed (s m : string) : Prop :=
  exists l r, s = l +:+ m +:+ r /\ blank l /\ blank r /\
    (forall c rest, m = String c rest -> is_space c = false) /\
    (forall rest c, m = rest +:+ String c EmptyString -> is_space c = false).

End Words.
Export Words.

(** ** Inputs for the examples *)

Module Inputs.

(** The add form with a title typed in. *)
Definition notes_form : Form :=
  {| f_title := "Notes"; f_url := EmptyString; f_subtitle := EmptyString;
     f_icon := "NotebookPen"; f_color := "from-sky-500 to-cyan-500";
     f_tags := EmptyString |}.

(** A storage with room and a slot that holds no JSON text, and one whose
    slot holds the JSON text of a theme name. *)
Definition corrupt_store : Storage :=
  {| slots := {[ "launcher.theme" := "{oops" ]}; quota := 5000000 |}.

Definition light_store : Storage :=
  {| slots := {[ "launcher.theme" := quoted "light" ]}; quota := 5000000 |}.

Definition empty_store : Storage := {| slots := ∅; quota := 5000000 |}.

(** A storage the browser grants no room. *)
Definition full_store : Storage := {| slots := ∅; quota := 0 |}.

(** A storage whose sticky record is the name of a member of
    [Object.prototype]. *)
Definition constructor_store : Storage :=
  {| slots := {[ sticky_key := "constructor" ]}; quota := 5000000 |}.

End Inputs.
Export Inputs.

(** ** The rest of the launcher *)

Module Launcher.

(** *** The quote of the day *)

Definition QUOTES : list string :=
  [ "Little steps compound into big wins.";
    "Plan the day, then own it.";
    "Momentum beats motivation.";
    "Do the next right thing.";
    "Focus. Finish. Feel good.";
    "What gets scheduled gets done." ].

(** [String(n)] for a natural number: its decimal digits. *)
Definition decimal (n : N) : string :=
  DecimalString.NilZero.string_of_uint (N.to_uint n).

(** [dayKey()], from what [getFullYear()], [getMonth()] and [getDate()] give
    for the present day. *)
Definition dayKey (year month date : N) : string :=
  decimal year +:+ "-" +:+ decimal (month + 1) +:+ "-" +:+ decimal date.

(** [ToInt32]: the integer of the same residue modulo 2^32 that lies between
    -2^31 and 2^31 - 1.  It is what [x << n] and [x | 0] work on. *)
Definition to_int32 (z : Z) : Z := ((z + 2 ^ 31) mod 2 ^ 32 - 2 ^ 31)%Z.

(** [str.charCodeAt(i)] *)
Definition charCodeAt (c : ascii) : Z := Z.of_N (code c).

(** The loop of [hash], from the value [h] on the characters [s]:
    [h = (h << 5) - h + str.charCodeAt(i); h |= 0]. *)
Fixpoint hash_loop (h : Z) (s : string) : Z :=
  match s with
  | EmptyString => h
  | String c r =>
      let h1 := (to_int32 (Z.shiftl (to_int32 h) 5) - h + charCodeAt c)%Z in
      hash_loop (to_int32 h1) r
  end.

(** [hash(str)] *)
Definition hash (str : string) : Z := Z.abs (hash_loop 0 str).

(** The memo [quote]: [QUOTES[Math.abs(hash(key)) % QUOTES.length]], for
    [key] the day key. *)
Definition quote (key : string) : option string :=
  array_get QUOTES (Z.rem (Z.abs (hash key)) (Z.of_nat (length QUOTES))).

(** *** The edit form *)

(** [arr.join(sep)] *)
Fixpoint Array_join (sep : string) (arr : list string) : string :=
  match arr with
  | [] => EmptyString
  | x :: rest =>
      match rest with
      | [] => x
      | _ :: _ => x +:+ sep +:+ Array_join sep rest
      end
  end.

(** The value of the tags input of [EditTileModal]. *)
Definition tags_value (draft : Tile) : string :=
  Array_join ", " (default [] (tags draft)).

(** What both forms make of the text of a tags input:
    [v.split(",").map((x) => x.trim()).filter(Boolean)]. *)
Definition parse_tags (v : string) : list string :=
  List.filter truthy (trim <$> split "," v).

(** The [onChange] handlers of [EditTileModal]: the draft with one field
    replaced. *)
Definition change_title (v : string) (draft : Tile) : Tile :=
  {| id := id draft; title := v; subtitle := subtitle draft; url := url draft;
     icon := icon draft; color := color draft; tags := tags draft |}.

Definition change_subtitle (v : string) (draft : Tile) : Tile :=
  {| id := id draft; title := title draft; subtitle := Some v; url := url draft;
     icon := icon draft; color := color draft; tags := tags draft |}.

Definition change_url (v : string) (draft : Tile) : Tile :=
  {| id := id draft; title := title draft; subtitle := subtitle draft; url := v;
     icon := icon draft; color := color draft; tags := tags draft |}.

Definition change_icon (v : string) (draft : Tile) : Tile :=
  {| id := id draft; title := title draft; subtitle := subtitle draft;
     url := url draft; icon := v; color := color draft; tags := tags draft |}.

Definition change_color (v : string) (draft : Tile) : Tile :=
  {| id := id draft; title := title draft; subtitle := subtitle draft;
     url := url draft; icon := icon draft; color := v; tags := tags draft |}.

Definition change_tags (v : string) (draft : Tile) : Tile :=
  {| id := id draft; title := title draft; subtitle := subtitle draft;
     url := url draft; icon := icon draft; color := color draft;
     tags := Some (parse_tags v) |}.

(** What the user does to the draft. *)
Inductive change : Type :=
| ChangeTitle (v : string)
| ChangeSubtitle (v : string)
| ChangeUrl (v : string)
| ChangeIcon (v : string)
| ChangeColor (v : string)
| ChangeTags (v : string).

Definition apply_change (c : change) (draft : Tile) : Tile :=
  match c with
  | ChangeTitle v => change_title v draft
  | ChangeSubtitle v => change_subtitle v draft
  | ChangeUrl v => change_url v draft
  | ChangeIcon v => change_icon v draft
  | ChangeColor v => change_color v draft
  | ChangeTags v => change_tags v draft
  end.

(** The draft after the changes, the first one first. *)
Definition apply_changes (cs : list change) (draft : Tile) : Tile :=
  foldl (fun d c => apply_change c d) draft cs.

(** *** The rows of the manage list *)

(** The buttons of a row that act on the list [local]. *)
Inductive row_click : Type :=
| ClickRemove (i : string)
| ClickMove (i : nat) (dir : Dir).

Definition click (c : row_click) (local : list Tile) : option (list Tile) :=
  match c with
  | ClickRemove i => Some (remove i local)
  | ClickMove i dir => move i dir local
  end.

(** The list after the clicks, the first one first. *)
Fixpoint clicks (cs : list row_click) (local : list Tile) : option (list Tile) :=
  match cs with
  | [] => Some local
  | c :: rest =>
      match click c local with
      | Some local' => clicks rest local'
      | None => None
      end
  end.

End Launcher.
Export Launcher.

(** ** More words *)

Module MoreWords.

(** The value of the characters of [s] read as digits in base 31, after
    the digits [acc]. *)
Fixpoint base31 (acc : Z) (s : string) : Z :=
  match s with
  | EmptyString => acc
  | String c r => base31 (acc * 31 + Z.of_N (code c)) r
  end.

(** A label as the forms store it: not empty, no white space at its ends,
    no comma. *)
Definition label (s : string) : Prop :=
  s <> EmptyString /\ trim s = s /\ free_of "," s.

(** The texts [dash_runs] makes: characters of a slug and single dashes;
    [after_dash] tells that a dash may not come first. *)
Fixpoint dashed (after_dash : bool) (s : string) : bool :=
  match s with
  | EmptyString => true
  | String c r =>
      if decide (c = "-"%char) then negb after_dash && dashed true r
      else is_slug_char c && dashed false r
  end.

(** The ids of the tiles, in order. *)
Definition ids (tiles : list Tile) : list string := id <$> tiles.

(** The custom properties [applyTheme] sets. *)
Definition custom_properties : list string :=
  ["--bg"; "--fg"; "--card"; "--muted"; "--accent"; "--ring"].

(** [n] applications of [f]. *)
Fixpoint iterate {A} (n : nat) (f : A -> A) (x : A) : A :=
  match n with
  | O => x
  | S k => iterate k f (f x)
  end.

End MoreWords.
Export MoreWords.

(** ** More inputs for the examples *)

Module MoreInputs.

(** A storage whose theme slot holds the JSON text of a name that is no
    theme. *)
Definition blue_store : Storage :=
  {| slots := {[ "launcher.theme" := quoted "blue" ]}; quota := 5000000 |}.

(** The no-break space U+00A0. *)
Definition no_break_space : ascii := "160"%char.

(** A tile with a letter of Latin-1 in its title, the e with an acute
    accent U+00E9, and that title in capitals, which ends in U+00C9. *)
Definition cafe : Tile :=
  {| id := "cafe-4fzy"; title := "Caf" +:+ String "233"%char EmptyString;
     subtitle := None; url := "https://example.com";
     icon := "ListTodo"; color := "from-sky-500 to-cyan-500";
     tags := Some [] |}.

Definition CAFE : string := "CAF" +:+ String "201"%char EmptyString.

(** A tags input with a no-break space before a label and one that stands
    alone between two commas. *)
Definition spaced_tags : string :=
  "work," +:+ String no_break_space "planning," +:+ String no_break_space ",home".

End MoreInputs.
Export MoreInputs.

(** ** Text beyond Latin-1

    The search filter once more, on text of any code units: a JS string is
    here the list of its UTF-16 code units. *)

Module Wide.

Definition text : Type := list N.

(** The text of a string of code units below 256. *)
Definition of_string (s : string) : text := code <$> list_ascii_of_string s.

(** White space of [String.prototype.trim]: the WhiteSpace and the
    LineTerminator code points of the language, which are tab, line feed,
    vertical tab, form feed, carriage return, space, U+00A0, U+1680, U+2000
    to U+200A, U+2028, U+2029, U+202F, U+205F, U+3000 and U+FEFF. *)
Definition is_space (u : N) : bool :=
  ((9 <=? u) && (u <=? 13) || (u =? 32) || (u =? 160) || (u =? 5760) ||
   (8192 <=? u) && (u <=? 8202) || (u =? 8232) || (u =? 8233) ||
   (u =? 8239) || (u =? 8287) || (u =? 12288) || (u =? 65279))%N.

Fixpoint trimStart (s : text) : text :=
  match s with
  | [] => []
  | u :: r => if is_space u then trimStart r else s
  end.

Fixpoint trimEnd (s : text) : text :=
  match s with
  | [] => []
  | u :: r =>
      match trimEnd r with
      | [] => if is_space u then [] else [u]
      | r' => u :: r'
      end
  end.

(** [s.trim()] *)
Definition trim (s : text) : text := trimEnd (trimStart s).

(** The capitals of Basic Latin and of Latin-1 and the Greek capitals
    U+0391 to U+03AB (U+03A2 is no letter), each with its small letter 32
    places on, and those small letters with the other small letters of
    Latin-1.  The table of [toLowerCase] is followed for these letters
    only: what is said below of [toLowerCase] is said of text of code
    units below 256 and of the one Greek word [odos]. *)
Definition is_capital (u : N) : bool :=
  ((65 <=? u) && (u <=? 90) ||
   (192 <=? u) && (u <=? 222) && negb (u =? 215) ||
   (913 <=? u) && (u <=? 939) && negb (u =? 930))%N.

Definition is_small (u : N) : bool :=
  ((97 <=? u) && (u <=? 122) ||
   (u =? 170) || (u =? 181) || (u =? 186) ||
   (223 <=? u) && (u <=? 255) && negb (u =? 247) ||
   (945 <=? u) && (u <=? 971))%N.

Definition is_cased (u : N) : bool := is_capital u || is_small u.

(** The capital sigma and its two small letters: the one that ends a word
    and the other. *)
Definition capital_sigma : N := 931.
Definition final_sigma : N := 962.
Definition small_sigma : N := 963.

(** [toLowerCase] from a place of the text on; [cased_before] tells whether
    the code unit before that place is a cased letter.  A capital sigma
    becomes the final sigma when a cased letter stands before it and none
    after it (the condition Final_Sigma of the Unicode table SpecialCasing
    that the language follows, for text without characters that the
    condition passes over, such as the apostrophe and the full stop). *)
Fixpoint lower_from (cased_before : bool) (s : text) : text :=
  match s with
  | [] => []
  | u :: r =>
      let cased_after :=
        match r with
        | v :: _ => is_cased v
        | [] => false
        end in
      (if (u =? capital_sigma)%N then
         if cased_before && negb cased_after then final_sigma else small_sigma
       else if is_capital u then (u + 32)%N
       else u)
      :: lower_from (is_cased u) r
  end.

(** [s.toLowerCase()] *)
Definition toLowerCase (s : text) : text := lower_from false s.

(** [s.startsWith(p)] *)
Fixpoint startsWith (p s : text) : bool :=
  match p, s with
  | [], _ => true
  | _ :: _, [] => false
  | a :: p', b :: s' => if decide (a = b) then startsWith p' s' else false
  end.

(** [s.includes(q)] *)
Fixpoint includes (s q : text) : bool :=
  startsWith q s ||
  match s with
  | [] => false
  | _ :: r => includes r q
  end.

(** Truthiness of a string. *)
Definition truthy (s : text) : bool :=
  match s with
  | [] => false
  | _ :: _ => true
  end.

Record Tile : Type := {
  id : text;
  title : text;
  subtitle : option text;
  url : text;
  icon : text;
  color : text;
  tags : option (list text)
}.

Definition of_tile (t : Tiles.Tile) : Tile :=
  {| id := of_string (Tiles.id t);
     title := of_string (Tiles.title t);
     subtitle := of_string <$> Tiles.subtitle t;
     url := of_string (Tiles.url t);
     icon := of_string (Tiles.icon t);
     color := of_string (Tiles.color t);
     tags := (fun labels : list string => of_string <$> labels) <$> Tiles.tags t |}.

Definition Boolean (x : option text) : bool :=
  match x with
  | Some s => truthy s
  | None => false
  end.

(** [[t.title, t.subtitle, ...(t.tags || [])]] *)
Definition searchable (t : Tile) : list (option text) :=
  Some (title t) :: subtitle t :: (Some <$> default [] (tags t)).

Definition matches (q : text) (t : Tile) : bool :=
  existsb (fun x => includes (toLowerCase (default [] x)) q)
          (List.filter Boolean (searchable t)).

(** The memo [filtered] of the component. *)
Definition filtered (tiles : list Tile) (query : text) : list Tile :=
  if negb (truthy (trim query)) then tiles
  else
    let q := toLowerCase query in
    List.filter (matches q) tiles.



End Wide.

(** * Properties *)

(** ** Strings *)

Implicit Types (s q p m : string) (c : ascii).

Lemma append_nil_l s : EmptyString +:+ s = s.
Proof. reflexivity. Qed.

Lemma append_cons c s1 s2 : String c s1 +:+ s2 = String c (s1 +:+ s2).
Proof. reflexivity. Qed.

Create Rewrite HintDb str.
#[export] Hint Rewrite append_nil_l append_cons : str.

Ltac str_simpl := simpl; autorewrite with str in *.

Lemma append_empty_r s : s +:+ EmptyString = s.
Proof. induction s as [|c s IH]; str_simpl; [done | by rewrite IH]. Qed.

Lemma append_assoc s1 s2 s3 : (s1 +:+ s2) +:+ s3 = s1 +:+ (s2 +:+ s3).
Proof. induction s1 as [|c s1 IH]; str_simpl; [done | by rewrite IH]. Qed.

Lemma append_inv_l s a b : s +:+ a = s +:+ b -> a = b.
Proof. induction s as [|c s IH]; str_simpl; [done |]. intros [= H]. auto. Qed.

Lemma truthy_true s : truthy s = true <-> s <> EmptyString.
Proof. destruct s; simpl; split; intros; done. Qed.

Lemma truthy_false s : truthy s = false <-> s = EmptyString.
Proof. destruct s; simpl; split; intros; done. Qed.

Lemma or_else_empty b : or_else EmptyString b = b.
Proof. reflexivity. Qed.

Lemma or_else_nonempty a b : a <> EmptyString -> or_else a b = a.
Proof. intros H. unfold or_else. by rewrite (proj2 (truthy_true a) H). Qed.

Lemma filter_truthy (l : list string) :
  List.filter truthy l = filter (fun s => s <> EmptyString) l.
Proof.
  induction l as [|s l IH]; [done |].
  destruct s as [|c s]; simpl; rewrite IH.
  - by rewrite filter_cons_False by (intros H; by apply H).
  - by rewrite filter_cons_True.
Qed.

(** *** [toLowerCase] *)


Lemma code_inj c1 c2 : code c1 = code c2 -> c1 = c2.
Proof.
  unfold code. intros H.
  rewrite <- (Ascii.ascii_N_embedding c1), <- (Ascii.ascii_N_embedding c2).
  by rewrite H.
Qed.

Lemma is_capital_spec c :
  is_capital c = true <->
  (65 <= code c <= 90 \/ (192 <= code c <= 222 /\ code c <> 215))%N.
Proof.
  unfold is_capital, is_upper.
  rewrite orb_true_iff, !andb_true_iff, negb_true_iff, !N.leb_le, N.eqb_neq.
  tauto.
Qed.

Lemma is_space_spec c :
  is_space c = true <->
  (9 <= code c <= 13 \/ code c = 32 \/ code c = 160)%N.
Proof.
  unfold is_space.
  rewrite !orb_true_iff, andb_true_iff, !N.leb_le, !N.eqb_eq. tauto.
Qed.

Lemma code_lower_char c :
  code (lower_char c) = if is_capital c then (code c + 32)%N else code c.
Proof.
  unfold lower_char. destruct (is_capital c) eqn:Hc; [| done].
  apply is_capital_spec in Hc.
  unfold code in *. apply Ascii.N_ascii_embedding. lia.
Qed.

(** A small letter is no capital. *)
Lemma small_not_capital c1 c2 :
  is_capital c1 = true -> code c2 = (code c1 + 32)%N -> is_capital c2 = false.
Proof.
  intros H1 H. destruct (is_capital c2) eqn:H2; [| done].
  apply is_capital_spec in H1, H2. lia.
Qed.

(** Two characters have the same lower case exactly when they are the same
    letter. *)
Lemma lower_char_eq c1 c2 : lower_char c1 = lower_char c2 <-> same_letter c1 c2.
Proof.
  unfold same_letter. split.
  - intros H. apply (f_equal code) in H. rewrite !code_lower_char in H.
    destruct (is_capital c1) eqn:H1, (is_capital c2) eqn:H2.
    + left. apply code_inj. lia.
    + right; left. split; [done | lia].
    + right; right. split; [done | lia].
    + left. by apply code_inj.
  - intros [-> | [[H1 H] | [H2 H]]]; [done | |]; apply code_inj;
      rewrite !code_lower_char.
    + by rewrite H1, (small_not_capital c1 c2 H1 H).
    + by rewrite H2, (small_not_capital c2 c1 H2 H).
Qed.

(** Two texts have the same lower case exactly when they are the same text,
    case aside. *)
Lemma toLowerCase_eq s1 s2 : toLowerCase s1 = toLowerCase s2 <-> same_text s1 s2.
Proof.
  split.
  - revert s2. induction s1 as [|c1 s1 IH]; intros [|c2 s2] H;
      simpl in H; try discriminate; [constructor |].
    injection H as Hc Hs. constructor; [by apply lower_char_eq | by apply IH].
  - induction 1 as [|a b s t Hab _ IH]; [done |].
    simpl. by rewrite (proj2 (lower_char_eq a b) Hab), IH.
Qed.


(** *** [startsWith] and [includes] *)






Lemma toLowerCase_empty s : toLowerCase s = EmptyString -> s = EmptyString.
Proof. by destruct s. Qed.


(** *** [trim] *)

Lemma trimEnd_empty s : trimEnd s = EmptyString <-> blank s.
Proof.
  unfold blank. induction s as [|c s IH]; simpl; [done |].
  destruct (trimEnd s) eqn:Hs.
  - destruct (is_space c); simpl; [| split; discriminate].
    rewrite <- IH. done.
  - split; [discriminate |].
    intros [_ H]%andb_true_iff. apply IH in H. discriminate.
Qed.

Lemma blank_trimStart s : blank (trimStart s) <-> blank s.
Proof.
  unfold blank. induction s as [|c s IH]; simpl; [done |].
  destruct (is_space c) eqn:Hc; simpl; [done |].
  by rewrite Hc.
Qed.

Lemma trim_empty s : trim s = EmptyString <-> blank s.
Proof. unfold trim. by rewrite trimEnd_empty, blank_trimStart. Qed.

Lemma blank_empty : blank EmptyString.
Proof. reflexivity. Qed.

Lemma blank_app s1 s2 : blank s1 -> blank s2 -> blank (s1 +:+ s2).
Proof.
  unfold blank. induction s1 as [|c s1 IH]; str_simpl; [done |].
  intros [Hc H1]%andb_true_iff H2. rewrite Hc. simpl. auto.
Qed.

Lemma trimStart_spec s :
  exists l, s = l +:+ trimStart s /\ blank l /\
    forall c rest, trimStart s = String c rest -> is_space c = false.
Proof.
  induction s as [|c s (l & Hl & Hb & Hfirst)]; simpl.
  - exists EmptyString. done.
  - destruct (is_space c) eqn:Hc.
    + exists (String c l). str_simpl. rewrite <- Hl.
      split; [done |]. split; [| done].
      unfold blank in *. simpl. by rewrite Hc.
    + exists EmptyString. split; [done |]. split; [done |].
      by intros c' rest [= <- _].
Qed.

Lemma trimEnd_spec s :
  exists r, s = trimEnd s +:+ r /\ blank r /\
    forall rest c, trimEnd s = rest +:+ String c EmptyString -> is_space c = false.
Proof.
  induction s as [|a s (r & Hr & Hb & Hlast)]; simpl.
  - exists EmptyString. split; [done |]. split; [done |].
    intros [|x rest] c H; str_simpl; discriminate.
  - destruct (trimEnd s) as [|b m] eqn:Hm.
    + str_simpl. subst s.
      destruct (is_space a) eqn:Ha.
      * exists (String a r). split; [done |]. split.
        -- unfold blank in *. simpl. by rewrite Ha.
        -- intros [|x rest] c H; str_simpl; discriminate.
      * exists r. split; [done |]. split; [done |].
        intros [|x rest] c H; str_simpl.
        -- by injection H as <-.
        -- injection H as _ H. destruct rest; str_simpl; discriminate.
    + exists r. str_simpl. split; [by rewrite Hr at 1 |]. split; [done |].
      intros [|x rest] c H; str_simpl; [discriminate |].
      injection H as _ H. by apply (Hlast rest).
Qed.

Lemma trimEnd_first s c rest :
  trimEnd s = String c rest -> exists rest', s = String c rest'.
Proof.
  destruct s as [|a s]; simpl; [done |].
  destruct (trimEnd s); [destruct (is_space a) |]; intros [= <- _]; eauto.
Qed.

(** [trim] takes the white space off the two ends and nothing else. *)
Lemma trim_spec s : trimmed s (trim s).
Proof.
  unfold trimmed, trim.
  destruct (trimStart_spec s) as (l & Hl & Hbl & Hfirst).
  destruct (trimEnd_spec (trimStart s)) as (r & Hr & Hbr & Hlast).
  exists l, r. split; [by rewrite <- Hr |]. split; [done |]. split; [done |].
  split; [| done].
  intros c rest H. apply trimEnd_first in H as [rest' H]. by eapply Hfirst.
Qed.

(** *** [split] *)

Lemma split_not_nil (sep : ascii) s : split sep s <> [].
Proof.
  destruct s as [|c s]; simpl; [done |].
  case_decide; [done |]. by destruct (split sep s).
Qed.

Lemma join_split (sep : ascii) s : join sep (split sep s) = s.
Proof.
  induction s as [|c s IH]; [done |].
  simpl. pose proof (split_not_nil sep s) as Hne.
  case_decide as Hc.
  - subst c. destruct (split sep s) as [|p ps] eqn:Hs; [done |].
    cbn [join]. cbn [join] in IH. by rewrite IH.
  - destruct (split sep s) as [|p ps]; [done |].
    cbn [join]. cbn [join] in IH. rewrite <- IH.
    by destruct ps.
Qed.

Lemma split_free_of (sep : ascii) s : Forall (free_of sep) (split sep s).
Proof.
  induction s as [|c s IH]; simpl.
  - by constructor.
  - case_decide as Hc.
    + by constructor.
    + destruct (split sep s) as [|p ps]; inversion IH; subst; constructor; try done.
      * unfold free_of. simpl. by rewrite bool_decide_eq_true_2.
      * unfold free_of in *. simpl. rewrite bool_decide_eq_true_2 by done. done.
Qed.

(** ** The theme cycle *)

Section ThemeCycle.

Lemma next_ThemeName (s : string) : next s ∈ ThemeName.
Proof.
  unfold next, ThemeName.
  repeat case_decide; set_solver.
Qed.

Lemma onKey_next_eq (s : string) : onKey_next s = next s.
Proof. reflexivity. Qed.

Lemma on_event_cases (e : event) (s : string) :
  on_event e s = s \/ on_event e s = next s.
Proof.
  destruct e as [key| |]; simpl; rewrite ?onKey_next_eq; repeat case_decide; auto.
Qed.

Lemma theme_step_ThemeName (s t : string) :
  s ∈ ThemeName -> theme_step s t -> t ∈ ThemeName.
Proof.
  intros Hs [e <-].
  destruct (on_event_cases e s) as [-> | ->]; [done | apply next_ThemeName].
Qed.

(** C5: the theme step is the cycle light, dark, grafit, surprise, light;
    the T key (either case) and the toggle button take that step and every
    other event leaves the selection as it is; every selection reached from
    one of the four names is one of the four names. *)
Theorem theme_cycle :
  (next "light" = "dark" /\ next "dark" = "grafit" /\
   next "grafit" = "surprise" /\ next "surprise" = "light") /\
  (forall s, on_event ToggleClick s = next s /\
             on_event (KeyDown "t") s = next s /\
             on_event (KeyDown "T") s = next s) /\
  (forall e s, on_event e s = s \/ on_event e s = next s) /\
  (forall s t, s ∈ ThemeName -> rtc theme_step s t -> t ∈ ThemeName).
Proof.
  split; [by repeat split |].
  split; [by repeat split |].
  split; [apply on_event_cases |].
  intros s t Hs Hreach.
  induction Hreach as [s | s u t Hstep _ IH]; [done |].
  apply IH. by eapply theme_step_ThemeName.
Qed.

Lemma theme_cycle_witness : "light" ∈ ThemeName.
Proof.
  apply (proj2 (proj2 (proj2 theme_cycle)) "grafit" "light").
  - unfold ThemeName. set_solver.
  - eapply rtc_l; [exists ToggleClick; reflexivity |].
    eapply rtc_l; [exists (KeyDown "T"); reflexivity |].
    eapply rtc_l; [exists (KeyDown "x"); reflexivity |].
    simpl. apply rtc_refl.
Defined.

End ThemeCycle.

(** ** Adding, editing and moving tiles *)

Section TileList.

Implicit Types (prev tiles : list Tile) (t updated : Tile) (f : Form).

(** C10: [addTile] puts the new tile in front of the list it is given. *)
Theorem addTile_front f (random36 : string) prev :
  (addTile f random36 prev).1 = new_tile f random36 :: prev /\
  head (addTile f random36 prev).1 = Some (new_tile f random36) /\
  tail (addTile f random36 prev).1 = prev /\
  length (addTile f random36 prev).1 = S (length prev).
Proof. by repeat split. Qed.

Lemma onSave_lookup updated prev (k : nat) :
  onSave updated prev !! k =
  (fun t => if decide (id t = id updated) then updated else t) <$> prev !! k.
Proof. unfold onSave. by rewrite list_lookup_fmap. Qed.

Lemma onSave_ids updated prev : (id <$> onSave updated prev) = (id <$> prev).
Proof.
  unfold onSave. rewrite <- list_fmap_compose.
  apply list_fmap_ext. intros k t _. simpl. case_decide; congruence.
Qed.

(** C9: saving an edited tile keeps the length of the list and the ids in
    their order, puts the edited tile at every position that held a tile
    with its id and keeps the tile of every other position. *)
Theorem onSave_frame updated prev :
  length (onSave updated prev) = length prev /\
  (id <$> onSave updated prev) = (id <$> prev) /\
  (forall k t, prev !! k = Some t -> id t = id updated ->
               onSave updated prev !! k = Some updated) /\
  (forall k t, prev !! k = Some t -> id t <> id updated ->
               onSave updated prev !! k = Some t).
Proof.
  split; [apply length_fmap |].
  split; [apply onSave_ids |].
  split; intros k t Hk Hid; rewrite onSave_lookup, Hk; simpl;
    case_decide; congruence.
Qed.

Lemma onSave_frame_witness :
  onSave {| id := "todo"; title := "Tasks"; subtitle := None;
            url := "https://example.com/tasks"; icon := "ListTodo";
            color := "from-rose-500 to-red-500"; tags := None |}
         DEFAULT_TILES !! 0%nat = DEFAULT_TILES !! 0%nat.
Proof.
  pose (u := {| id := "todo"; title := "Tasks"; subtitle := None;
                url := "https://example.com/tasks"; icon := "ListTodo";
                color := "from-rose-500 to-red-500"; tags := None |}).
  destruct (DEFAULT_TILES !! 0%nat) as [t|] eqn:Ht; [| discriminate].
  apply (proj2 (proj2 (proj2 (onSave_frame u DEFAULT_TILES))) 0%nat t Ht).
  injection Ht as <-. discriminate.
Defined.

Lemma move_outside (i : nat) (dir : Dir) prev :
  (Z.of_nat i + dir_value dir < 0 \/
   Z.of_nat i + dir_value dir >= Z.of_nat (length prev))%Z ->
  move i dir prev = Some prev.
Proof. intros Hj. unfold move. by rewrite decide_True. Qed.

Lemma move_inside (i j : nat) (dir : Dir) prev (a b : Tile) :
  Z.of_nat j = (Z.of_nat i + dir_value dir)%Z ->
  prev !! i = Some a -> prev !! j = Some b ->
  move i dir prev = Some (<[j := a]> (<[i := b]> prev)).
Proof.
  intros Hj Ha Hb. unfold move.
  apply lookup_lt_Some in Hb as Hlt.
  rewrite decide_False by lia.
  rewrite <- Hj, Nat2Z.id, Ha, Hb. done.
Qed.

(** On the index of a row [move] always gives a list of tiles. *)
Lemma move_total (i : nat) (dir : Dir) prev :
  (i < length prev)%nat -> exists next, move i dir prev = Some next.
Proof.
  intros Hi. unfold move. case_decide as Hj; [eauto |].
  destruct (lookup_lt_is_Some_2 prev i Hi) as [a ->].
  destruct (lookup_lt_is_Some_2 prev (Z.to_nat (Z.of_nat i + dir_value dir)))
    as [b ->]; [lia | eauto].
Qed.

(** C7: for the index [i] of a tile, [move i dir] exchanges the tiles at
    [i] and [i + dir] and keeps every other position when [i + dir] is an
    index of the list, and gives the list back when it is not; so the first
    tile moved down changes place with the second and the last tile moved
    down stays. *)
Theorem move_swap (i : nat) (dir : Dir) prev :
  (i < length prev)%nat ->
  let j := (Z.of_nat i + dir_value dir)%Z in
  ((0 <= j < Z.of_nat (length prev))%Z ->
   exists next,
     move i dir prev = Some next /\
     length next = length prev /\
     next !! i = prev !! Z.to_nat j /\
     next !! Z.to_nat j = prev !! i /\
     forall k, k <> i -> k <> Z.to_nat j -> next !! k = prev !! k) /\
  ((j < 0 \/ j >= Z.of_nat (length prev))%Z -> move i dir prev = Some prev) /\
  (i = 0%nat -> dir = Down -> forall a b rest,
     prev = a :: b :: rest -> move i dir prev = Some (b :: a :: rest)) /\
  (S i = length prev -> dir = Down -> move i dir prev = Some prev).
Proof.
  intros Hi j. repeat split.
  - intros Hj.
    destruct (lookup_lt_is_Some_2 prev i Hi) as [a Ha].
    destruct (lookup_lt_is_Some_2 prev (Z.to_nat j)) as [b Hb]; [lia |].
    exists (<[Z.to_nat j := a]> (<[i := b]> prev)).
    split; [apply move_inside; [lia | done | done] |].
    split; [by rewrite !length_insert |].
    assert (i <> Z.to_nat j) by (subst j; destruct dir; unfold dir_value in *; lia).
    split; [| split].
    + rewrite list_lookup_insert_ne by done.
      rewrite list_lookup_insert_eq by done. by rewrite Hb.
    + rewrite list_lookup_insert_eq by (rewrite length_insert; lia).
      by rewrite Ha.
    + intros k Hki Hkj. by rewrite !list_lookup_insert_ne.
  - apply move_outside.
  - intros -> -> a b rest ->. by rewrite (move_inside 0 1 Down _ a b).
  - intros Hlast ->. apply move_outside. right. simpl. lia.
Qed.

Lemma move_swap_witness :
  move 0 Down DEFAULT_TILES = Some DEFAULT_TILES \/
  exists next, move 0 Down DEFAULT_TILES = Some next /\
               length next = 3%nat /\ next !! 0%nat = DEFAULT_TILES !! 1%nat.
Proof.
  right.
  assert (Hi : (0 < length DEFAULT_TILES)%nat) by (unfold DEFAULT_TILES; simpl; lia).
  destruct (proj1 (move_swap 0 Down DEFAULT_TILES Hi)) as (next & Hm & Hl & H0 & _).
  - unfold DEFAULT_TILES. simpl. lia.
  - exists next. auto.
Defined.

End TileList.


(** ** The tile the add form makes *)

Section AddTile.

Implicit Types (f : Form) (prev : list Tile).

Lemma new_tile_tags f (random36 : string) :
  tags (new_tile f random36) =
  Some (filter (fun label => label <> EmptyString) (trim <$> split "," (f_tags f))).
Proof. simpl. by rewrite filter_truthy. Qed.

(** C8: the tile [addTile] puts in the list has the placeholder title for
    an empty title and the title as typed otherwise, the placeholder address
    for an empty address and the address as typed otherwise, and for tags the
    pieces of the tags text between its commas, each without the white space
    at its ends (the white space of [trim], the no-break space included),
    the empty ones left out. *)
Theorem addTile_fields f (random36 : string) prev :
  exists t, (addTile f random36 prev).1 = t :: prev /\
    (f_title f = EmptyString -> title t = "Untitled") /\
    (f_title f <> EmptyString -> title t = f_title f) /\
    (f_url f = EmptyString -> url t = "https://example.com") /\
    (f_url f <> EmptyString -> url t = f_url f) /\
    exists pieces labels,
      join "," pieces = f_tags f /\
      Forall (free_of ",") pieces /\
      Forall2 trimmed pieces labels /\
      tags t = Some (filter (fun label => label <> EmptyString) labels).
Proof.
  exists (new_tile f random36). split; [done |].
  split; [intros H; simpl; by rewrite H |].
  split; [intros H; simpl; by apply or_else_nonempty |].
  split; [intros H; simpl; by rewrite H |].
  split; [intros H; simpl; by apply or_else_nonempty |].
  exists (split "," (f_tags f)), (trim <$> split "," (f_tags f)).
  split; [apply join_split |].
  split; [apply split_free_of |].
  split; [| apply new_tile_tags].
  apply Forall2_fmap_r, Forall_Forall2_diag, Forall_forall.
  intros p _. apply trim_spec.
Qed.

Lemma addTile_fields_witness :
  exists t,
    (addTile {| f_title := EmptyString; f_url := "https://a.example";
                f_subtitle := EmptyString; f_icon := "ListTodo";
                f_color := "from-sky-500 to-cyan-500";
                f_tags := " work, ,planning " |} "0.4fzyo82mvyr" []).1 = [t] /\
    title t = "Untitled" /\ url t = "https://a.example" /\
    tags t = Some ["work"; "planning"].
Proof.
  destruct (addTile_fields {| f_title := EmptyString; f_url := "https://a.example";
                f_subtitle := EmptyString; f_icon := "ListTodo";
                f_color := "from-sky-500 to-cyan-500";
                f_tags := " work, ,planning " |} "0.4fzyo82mvyr" [])
    as (t & Ht & Ht1 & _ & _ & Hu & _).
  exists t. split; [done |]. split; [by apply Ht1 |]. split; [by apply Hu |].
  injection Ht as <-. reflexivity.
Defined.

End AddTile.

(** ** The search filter *)

Section Search.

Implicit Types (tiles : list Tile) (t : Tile) (query : string).

Lemma selects_filter {A} (f : A -> bool) (P : A -> Prop) (l : list A) :
  (forall x, f x = true <-> P x) -> selects P l (List.filter f l).
Proof.
  intros Hf. induction l as [|x l IH]; simpl; [constructor |].
  destruct (f x) eqn:Hx.
  - apply selects_keep; [by apply Hf | done].
  - apply selects_drop; [| done]. rewrite <- Hf. congruence.
Qed.

Lemma selects_sublist {A} (P : A -> Prop) (l l' : list A) :
  selects P l l' -> sublist l' l.
Proof. induction 1; by constructor. Qed.








End Search.

(** ** The search filter beyond Latin-1 *)

Section SearchWide.

Local Open Scope list_scope.

Lemma code_bounded c : (code c < 256)%N.
Proof. apply Ascii.N_ascii_bounded. Qed.

Lemma of_string_cons c s :
  Wide.of_string (String c s) = code c :: Wide.of_string s.
Proof. reflexivity. Qed.

Lemma of_string_inj s1 s2 : Wide.of_string s1 = Wide.of_string s2 -> s1 = s2.
Proof.
  revert s2. induction s1 as [|a s1 IH]; intros [|b s2]; try done.
  rewrite !of_string_cons. intros [= Hab Hs].
  by rewrite (code_inj a b Hab), (IH s2 Hs).
Qed.

Lemma wide_is_space c : Wide.is_space (code c) = is_space c.
Proof.
  pose proof (code_bounded c) as Hc. apply eq_true_iff_eq.
  rewrite is_space_spec. unfold Wide.is_space.
  rewrite !orb_true_iff, !andb_true_iff, !N.leb_le, !N.eqb_eq. lia.
Qed.

Lemma wide_is_capital c : Wide.is_capital (code c) = is_capital c.
Proof.
  pose proof (code_bounded c) as Hc. apply eq_true_iff_eq.
  rewrite is_capital_spec. unfold Wide.is_capital.
  rewrite !orb_true_iff, !andb_true_iff, !negb_true_iff, !N.leb_le, !N.eqb_neq. lia.
Qed.

(** On text of code units below 256 the two models of [toLowerCase], of
    [trim] and of [includes] agree. *)
Lemma wide_lower_from b s :
  Wide.lower_from b (Wide.of_string s) = Wide.of_string (toLowerCase s).
Proof.
  revert b. induction s as [|c s IH]; intros b; [done |].
  rewrite of_string_cons. simpl. rewrite of_string_cons, IH. f_equal.
  pose proof (code_bounded c) as Hc.
  destruct (N.eqb_spec (code c) Wide.capital_sigma) as [E|_];
    [unfold Wide.capital_sigma in E; lia |].
  by rewrite wide_is_capital, code_lower_char.
Qed.

Lemma wide_toLowerCase s :
  Wide.toLowerCase (Wide.of_string s) = Wide.of_string (toLowerCase s).
Proof. apply wide_lower_from. Qed.

Lemma wide_trimStart s :
  Wide.trimStart (Wide.of_string s) = Wide.of_string (trimStart s).
Proof.
  induction s as [|c s IH]; [done |].
  rewrite of_string_cons. simpl. rewrite wide_is_space.
  by destruct (is_space c).
Qed.

Lemma wide_trimEnd s :
  Wide.trimEnd (Wide.of_string s) = Wide.of_string (trimEnd s).
Proof.
  induction s as [|c s IH]; [done |].
  rewrite of_string_cons. simpl. rewrite IH, wide_is_space.
  destruct (trimEnd s); [by destruct (is_space c) | done].
Qed.

Lemma wide_trim s : Wide.trim (Wide.of_string s) = Wide.of_string (trim s).
Proof. unfold Wide.trim, trim. by rewrite wide_trimStart, wide_trimEnd. Qed.

Lemma wide_truthy s : Wide.truthy (Wide.of_string s) = truthy s.
Proof. by destruct s. Qed.

Lemma wide_startsWith p s :
  Wide.startsWith (Wide.of_string p) (Wide.of_string s) = startsWith p s.
Proof.
  revert s. induction p as [|a p IH]; intros [|b s]; try done.
  rewrite !of_string_cons. simpl.
  destruct (decide (code a = code b)) as [E|E], (decide (a = b)) as [E'|E'];
    [apply IH | by apply code_inj in E | by subst | done].
Qed.

Lemma wide_includes s q :
  Wide.includes (Wide.of_string s) (Wide.of_string q) = includes s q.
Proof.
  induction s as [|c s IH].
  - by destruct q.
  - rewrite of_string_cons. simpl.
    by rewrite <- of_string_cons, wide_startsWith, IH.
Qed.

Lemma wide_searchable (t : Tiles.Tile) :
  Wide.searchable (Wide.of_tile t) =
  (fun x : option string => Wide.of_string <$> x) <$> searchable t.
Proof.
  unfold Wide.searchable, searchable, Wide.of_tile. cbn [Wide.title Wide.subtitle Wide.tags].
  rewrite !fmap_cons. do 2 f_equal.
  destruct (Tiles.tags t) as [labels|]; [| done].
  cbn [fmap option_fmap option_map default]. unfold Datatypes.id.
  induction labels as [|label labels IH]; [done |].
  rewrite !fmap_cons. by f_equal.
Qed.

Lemma wide_matches q (t : Tiles.Tile) :
  Wide.matches (Wide.of_string q) (Wide.of_tile t) = matches q t.
Proof.
  unfold Wide.matches, matches. rewrite wide_searchable.
  assert (Hopt : forall x : option string,
    Wide.Boolean (Wide.of_string <$> x) = Boolean x).
  { intros [x|]; [apply wide_truthy | done]. }
  assert (Hinc : forall x : option string,
    Wide.includes (Wide.toLowerCase (default [] (Wide.of_string <$> x)))
      (Wide.of_string q) =
    includes (toLowerCase (default EmptyString x)) q).
  { intros [x|]; simpl.
    - by rewrite wide_toLowerCase, wide_includes.
    - apply (wide_includes EmptyString q). }
  induction (searchable t) as [|x l IH]; [done |].
  rewrite fmap_cons. simpl. rewrite Hopt.
  destruct (Boolean x); simpl; [by rewrite Hinc, IH | done].
Qed.

(** On tiles and queries of code units below 256 the filter on wide text is
    the filter [filtered]. *)
Lemma wide_filtered (tiles : list Tiles.Tile) query :
  Wide.filtered (Wide.of_tile <$> tiles) (Wide.of_string query) =
  Wide.of_tile <$> filtered tiles query.
Proof.
  unfold Wide.filtered, filtered.
  rewrite wide_trim, wide_truthy, wide_toLowerCase.
  destruct (truthy (trim query)); simpl; [| done].
  induction tiles as [|t tiles IH]; [done |].
  rewrite fmap_cons. simpl. rewrite wide_matches, IH.
  by destruct (matches (toLowerCase query) t).
Qed.


End SearchWide.

(** ** Latin-1 in the queries and in the tags *)

Section Latin1.

(** A query that is a no-break space is white space: the filter gives the
    collection back. *)
Example filtered_no_break_space :
  trim (String no_break_space EmptyString) = EmptyString /\
  filtered DEFAULT_TILES (String no_break_space EmptyString) = DEFAULT_TILES.
Proof. split; reflexivity. Qed.

(** The capitals of Latin-1 have their small letters: the query in
    capitals finds the tile. *)
Example filtered_cafe :
  toLowerCase CAFE = toLowerCase (title cafe) /\
  filtered (cafe :: DEFAULT_TILES) CAFE = [cafe].
Proof. split; reflexivity. Qed.

(** The add form takes the no-break space off a label and drops the label
    that is nothing else. *)
Example addTile_no_break_space :
  tags (new_tile
          {| f_title := "Notes"; f_url := EmptyString; f_subtitle := EmptyString;
             f_icon := "ListTodo"; f_color := "from-sky-500 to-cyan-500";
             f_tags := spaced_tags |} "0.4fzyo82mvyr") =
  Some ["work"; "planning"; "home"].
Proof. reflexivity. Qed.

(** A text that starts with a no-break space is no label, and the edit
    form reads the label without it. *)
Example no_break_space_label :
  ~ label (String no_break_space "x") /\
  parse_tags (Array_join ", " [String no_break_space "x"]) = ["x"].
Proof.
  split; [| reflexivity]. intros (_ & H & _). discriminate H.
Qed.

End Latin1.

(** ** The ids of the tiles *)

Section Ids.

Implicit Types (f : Form) (prev : list Tile).

Lemma new_id_eq f f' (random36 random36' : string) :
  f_title f' = f_title f ->
  new_id f random36 = new_id f' random36' <->
  slice 2 6 random36 = slice 2 6 random36'.
Proof.
  intros Ht. unfold new_id. rewrite Ht. split.
  - intros H. by do 2 apply append_inv_l in H.
  - by intros ->.
Qed.

(** C6, as the code has it: a tile added to a collection of distinct ids
    leaves the ids distinct exactly when the new id, which is the slug of the
    title, a dash and the characters 2 to 5 of the draw written in base 36,
    is the id of no tile of the collection; two tiles added with the same
    title get distinct ids exactly when those characters of the two draws
    differ. *)
Theorem addTile_ids f (random36 : string) prev :
  NoDup (id <$> prev) ->
  (NoDup (id <$> (addTile f random36 prev).1) <->
   new_id f random36 ∉ id <$> prev) /\
  (forall f' random36', f_title f' = f_title f ->
     id (new_tile f random36) <> id (new_tile f' random36') <->
     slice 2 6 random36 <> slice 2 6 random36').
Proof.
  intros Hnd. split.
  - simpl. rewrite NoDup_cons. tauto.
  - intros f' r' Ht. simpl. by rewrite (new_id_eq f f' random36 r' Ht).
Qed.

Lemma addTile_ids_witness :
  NoDup (id <$> (addTile notes_form "0.4fzyo82mvyr" DEFAULT_TILES).1) <->
  new_id notes_form "0.4fzyo82mvyr" ∉ id <$> DEFAULT_TILES.
Proof.
  apply (proj1 (addTile_ids notes_form "0.4fzyo82mvyr" DEFAULT_TILES
                  ltac:(apply (bool_decide_unpack _); vm_compute; exact I))).
Defined.

(** C6 as stated fails: two tiles added one after the other with the same
    title and two draws that agree on the characters 2 to 5 of their base 36
    text get the same id. *)
Lemma addTile_ids_collide :
  let once := (addTile notes_form "0.4fzyo82mvyr" DEFAULT_TILES).1 in
  let twice := (addTile notes_form "0.4fzy1c9kq3" once).1 in
  NoDup (id <$> once) /\
  (id <$> twice) = ["notes-4fzy"; "notes-4fzy"; "calendar"; "dashboard"; "todo"] /\
  ~ NoDup (id <$> twice).
Proof.
  intros once twice. split; [| split].
  - apply (bool_decide_unpack _). vm_compute. exact I.
  - reflexivity.
  - intros H. unfold twice, once in H. simpl in H.
    apply NoDup_cons in H as [H _]. apply H. by left.
Qed.

End Ids.

(** ** JSON at the type of strings *)

Lemma parse_chars_escape_char (c : ascii) (r : string) :
  parse_chars (escape_char c +:+ r) =
  '(content, rest) ← parse_chars r; Some (String c content, rest).
Proof.
  destruct c as [[] [] [] [] [] [] [] []]; reflexivity.
Qed.

Lemma parse_chars_escape (s rest : string) :
  parse_chars (escape s +:+ String dquote rest) = Some (s, rest).
Proof.
  induction s as [|c s IH]; [done |].
  simpl. rewrite append_assoc, parse_chars_escape_char, IH. done.
Qed.

(** [JSON.parse] gives back the string [JSON.stringify] wrote. *)
Lemma JSON_parse_stringify_string (s : string) :
  exists text, JSON_stringify_string s = Return (Some text) /\
               JSON_parse_string text = Return s.
Proof.
  eexists. split; [reflexivity |].
  unfold JSON_parse_string, quoted. simpl.
  by rewrite parse_chars_escape.
Qed.

(** ** The persistent store *)

Section Store.

Context {T : Type}.
Variable JSON_parse : string -> outcome T.
Variable JSON_stringify : T -> outcome (option string).

(** The empty text is not a JSON text. *)
Hypothesis JSON_parse_empty : JSON_parse EmptyString = Throw.

Implicit Types (st : Storage) (key : string) (initial value : T).

Lemma initial_absent st key initial :
  getItem st key = None ->
  usePersistentState_initial JSON_parse st key initial = Return initial.
Proof. intros H. unfold usePersistentState_initial. by rewrite H. Qed.

Lemma initial_present st key initial (raw : string) :
  getItem st key = Some raw ->
  usePersistentState_initial JSON_parse st key initial =
  match JSON_parse raw with
  | Return v => Return v
  | Throw => Return initial
  end.
Proof.
  intros H. unfold usePersistentState_initial. rewrite H.
  destruct raw as [|c raw]; simpl; [by rewrite JSON_parse_empty |].
  by destruct (JSON_parse _).
Qed.

(** C2: the first value of the state is the value [JSON.parse] reads from
    the slot when the slot holds a text that parses, and [initial] when the
    slot is absent or its text does not parse; in no case does the
    initializer throw. *)
Theorem initial_value st key initial :
  (forall raw v, getItem st key = Some raw -> JSON_parse raw = Return v ->
     usePersistentState_initial JSON_parse st key initial = Return v) /\
  (getItem st key = None ->
     usePersistentState_initial JSON_parse st key initial = Return initial) /\
  (forall raw, getItem st key = Some raw -> JSON_parse raw = Throw ->
     usePersistentState_initial JSON_parse st key initial = Return initial) /\
  (exists v, usePersistentState_initial JSON_parse st key initial = Return v).
Proof.
  split; [| split; [| split]].
  - intros raw v Hraw Hv. by rewrite (initial_present _ _ _ raw), Hv.
  - apply initial_absent.
  - intros raw Hraw Hv. by rewrite (initial_present _ _ _ raw), Hv.
  - destruct (getItem st key) as [raw|] eqn:Hraw.
    + rewrite (initial_present _ _ _ raw) by done.
      destruct (JSON_parse raw); eauto.
    + rewrite initial_absent by done. eauto.
Qed.

(** The effect never throws. *)
Lemma effect_returns st key value :
  exists st', usePersistentState_effect JSON_stringify st key value = Return st'.
Proof.
  unfold usePersistentState_effect.
  destruct (JSON_stringify value) as [text|]; simpl; [| eauto].
  destruct (setItem st key (String_of text)); simpl; eauto.
Qed.

(** A write that throws is swallowed: the storage stays as it was. *)
Lemma effect_swallows st key value (text : option string) :
  JSON_stringify value = Return text ->
  setItem st key (String_of text) = Throw ->
  usePersistentState_effect JSON_stringify st key value = Return st.
Proof.
  intros Hs Hw. unfold usePersistentState_effect. rewrite Hs. simpl. by rewrite Hw.
Qed.

Lemma getItem_setItem st st' key (text : string) :
  setItem st key text = Return st' -> getItem st' key = Some text.
Proof.
  unfold setItem, getItem. case_decide; [| done].
  intros [= <-]. simpl. apply lookup_insert_eq.
Qed.

Lemma getItem_setItem_ne st st' key key' (text : string) :
  key <> key' ->
  setItem st key text = Return st' -> getItem st' key' = getItem st key'.
Proof.
  intros Hne. unfold setItem, getItem. case_decide; [| done].
  intros [= <-]. simpl. by apply lookup_insert_ne.
Qed.

(** The effect writes the text of the value. *)
Lemma effect_writes st st' key value (text : option string) :
  JSON_stringify value = Return text ->
  setItem st key (String_of text) = Return st' ->
  usePersistentState_effect JSON_stringify st key value = Return st'.
Proof.
  intros Hs Hw. unfold usePersistentState_effect. rewrite Hs. simpl. by rewrite Hw.
Qed.

(** What was written and parses is what the initializer gives. *)
Lemma initial_after_write st st' key initial (text : string) (v : T) :
  setItem st key text = Return st' ->
  JSON_parse text = Return v ->
  usePersistentState_initial JSON_parse st' key initial = Return v.
Proof.
  intros Hw Hp.
  rewrite (initial_present _ _ _ text), Hp; [done |].
  by eapply getItem_setItem.
Qed.

(** C3, as the code has it: after [Initialize(key, X)] the effect run with
    [X] writes the JSON text of [X] under [key], and when that write does
    not throw and [JSON.parse] reads [X] back from that text, a fresh
    [Initialize(key, default)] gives [X]. *)
Theorem round_trip st st' key (X default : T) (text : option string) :
  JSON_stringify X = Return text ->
  setItem st key (String_of text) = Return st' ->
  JSON_parse (String_of text) = Return X ->
  usePersistentState_effect JSON_stringify st key X = Return st' /\
  usePersistentState_initial JSON_parse st' key default = Return X.
Proof.
  intros Hs Hw Hp. split.
  - by eapply effect_writes.
  - by eapply initial_after_write.
Qed.

End Store.

Section StoreExamples.

Lemma initial_value_witness :
  usePersistentState_initial JSON_parse_string corrupt_store "launcher.theme" "dark"
    = Return "dark" /\
  usePersistentState_initial JSON_parse_string light_store "launcher.theme" "dark"
    = Return "light".
Proof.
  pose proof (initial_value JSON_parse_string eq_refl) as H. split.
  - apply (proj1 (proj2 (proj2 (H corrupt_store "launcher.theme" "dark"))) "{oops");
      reflexivity.
  - apply (proj1 (H light_store "launcher.theme" "dark") (quoted "light") "light");
      reflexivity.
Defined.

Lemma round_trip_witness :
  exists st',
    usePersistentState_effect JSON_stringify_string empty_store "launcher.theme" "surprise"
      = Return st' /\
    usePersistentState_initial JSON_parse_string st' "launcher.theme" "dark"
      = Return "surprise".
Proof.
  exists {| slots := {[ "launcher.theme" := quoted "surprise" ]}; quota := 5000000 |}.
  apply (round_trip JSON_parse_string JSON_stringify_string eq_refl
           empty_store _ "launcher.theme" "surprise" "dark"
           (Some (quoted "surprise"))); reflexivity.
Defined.

(** C3 as stated fails in two ways.  When the storage has no room the
    write of the effect throws and is swallowed, and the fresh [Initialize]
    gives the default.  And [undefined] never comes back: [JSON.stringify]
    gives [undefined] for it, the slot gets the text undefined, which is not
    JSON, and the fresh [Initialize] gives the default. *)
Lemma round_trip_lost :
  (usePersistentState_initial JSON_parse_string full_store "launcher.theme" "light"
     = Return "light" /\
   exists st',
     usePersistentState_effect JSON_stringify_string full_store "launcher.theme" "light"
       = Return st' /\
     getItem st' "launcher.theme" = None /\
     usePersistentState_initial JSON_parse_string st' "launcher.theme" "dark"
       = Return "dark" /\
     usePersistentState_initial JSON_parse_string st' "launcher.theme" "dark"
       <> Return "light") /\
  (usePersistentState_initial JSON_parse_optional empty_store "k" None = Return None /\
   exists st',
     usePersistentState_effect JSON_stringify_optional empty_store "k" None
       = Return st' /\
     getItem st' "k" = Some "undefined" /\
     usePersistentState_initial JSON_parse_optional st' "k" (Some "default")
       = Return (Some "default") /\
     usePersistentState_initial JSON_parse_optional st' "k" (Some "default")
       <> Return None).
Proof.
  split.
  - split; [reflexivity |].
    exists full_store. repeat split; [discriminate].
  - split; [reflexivity |].
    eexists. split; [reflexivity |]. repeat split; [discriminate].
Qed.

(** Every string comes back when the write succeeds. *)
Lemma string_comes_back (st st' : Storage) (key X default : string) :
  setItem st key (quoted (escape X)) = Return st' ->
  usePersistentState_effect JSON_stringify_string st key X = Return st' /\
  usePersistentState_initial JSON_parse_string st' key default = Return X.
Proof.
  intros Hw.
  destruct (JSON_parse_stringify_string X) as (text & Hs & Hp).
  injection Hs as <-. split.
  - by apply (effect_writes JSON_stringify_string st st' key X (Some (quoted (escape X)))).
  - by apply (initial_after_write JSON_parse_string eq_refl st st' key default
                (quoted (escape X)) X).
Qed.

End StoreExamples.

(** ** The surprise theme *)

Section Surprise.

Implicit Types (st : Storage) (style : Style) (random : Q) (tokens : ThemeTokens).

Lemma String_of_Some (x : string) : String_of (Some x) = x.
Proof. reflexivity. Qed.

Lemma setItem_within_quota st st' (key value : string) :
  setItem st key value = Return st' -> within_quota st'.
Proof.
  unfold setItem, within_quota. case_decide; [| done]. by intros [= <-].
Qed.

(** Writing a slot the value it holds changes nothing and fits. *)
Lemma setItem_same st (key value : string) :
  within_quota st -> getItem st key = Some value -> setItem st key value = Return st.
Proof.
  unfold within_quota, getItem, setItem. intros Hq Hv.
  rewrite (insert_id _ _ _ Hv). rewrite decide_True by done.
  by destruct st.
Qed.

Ltac style_lookup :=
  repeat (rewrite lookup_insert_eq || rewrite lookup_insert_ne by done).

Lemma write_tokens_own tokens style :
  exists style', write_tokens (Own tokens) style = Return style' /\
                 applied style' = Some tokens.
Proof.
  eexists. split; [reflexivity |].
  unfold applied, setProperty. style_lookup. by destruct tokens.
Qed.

(** A member of [Object.prototype] has none of the six fields: each custom
    property gets the text undefined. *)
Lemma write_tokens_inherited (name : string) style :
  exists style', write_tokens (Inherited name) style = Return style' /\
    applied style' =
    Some {| bg := "undefined"; fg := "undefined"; card := "undefined";
            muted := "undefined"; accent := "undefined"; ring := "undefined" |}.
Proof.
  eexists. split; [reflexivity |].
  unfold applied, setProperty. by style_lookup.
Qed.

Lemma write_tokens_undefined style : write_tokens Undefined style = Throw.
Proof. reflexivity. Qed.

(** The palettes are the own properties of [SURPRISE_PALETTES]. *)
Lemma palette_own (name : string) tokens :
  (name, tokens) ∈ SURPRISE_PALETTES <-> own_property SURPRISE_PALETTES name = Some tokens.
Proof.
  unfold SURPRISE_PALETTES. simpl. split.
  - rewrite !elem_of_cons, elem_of_nil.
    intros [[= -> ->] | [[= -> ->] | [[= -> ->] | []]]]; reflexivity.
  - repeat case_decide; intros [= <-]; subst name; set_solver.
Qed.

Lemma random_index random :
  (0 <= random)%Q -> (random < 1)%Q ->
  (0 <= Qfloor (random * inject_Z 3) < 3)%Z.
Proof.
  intros H0 H1. split.
  - change 0%Z with (Qfloor 0). apply Qfloor_resp_le.
    by apply Qmult_le_0_compat.
  - rewrite Zlt_Qlt. eapply Qle_lt_trans; [apply Qfloor_le |].
    apply Qlt_le_trans with (1 * inject_Z 3)%Q; [by apply Qmult_lt_compat_r |].
    rewrite Qmult_1_l. apply Qle_refl.
Qed.

(** A draw picks one of the three palette names. *)
Lemma random_pick random :
  (0 <= random)%Q -> (random < 1)%Q ->
  exists name tokens,
    array_get (Object_keys SURPRISE_PALETTES)
      (Qfloor (random * inject_Z (Z.of_nat (length (Object_keys SURPRISE_PALETTES)))))
      = Some name /\
    own_property SURPRISE_PALETTES name = Some tokens.
Proof.
  intros H0 H1. pose proof (random_index random H0 H1) as Hi.
  change (Z.of_nat (length (Object_keys SURPRISE_PALETTES))) with 3%Z.
  unfold array_get.
  destruct (Z.ltb_spec (Qfloor (random * inject_Z 3)) 0) as [Hneg | _]; [lia |].
  assert (Z.to_nat (Qfloor (random * inject_Z 3)) = 0 \/
          Z.to_nat (Qfloor (random * inject_Z 3)) = 1 \/
          Z.to_nat (Qfloor (random * inject_Z 3)) = 2)%nat as [-> | [-> | ->]] by lia;
    simpl; eauto.
Qed.

(** The first part of C1: a sticky record that names a palette is reused;
    the storage stays as it is and the six custom properties get the tokens
    of that palette, whatever the draw. *)
Lemma applyTheme_sticky st style random (name : string) tokens :
  within_quota st ->
  getItem st sticky_key = Some name ->
  (name, tokens) ∈ SURPRISE_PALETTES ->
  exists style', applyTheme "surprise" random st style = Return (st, style') /\
                 applied style' = Some tokens.
Proof.
  intros Hq Hs Hin. apply palette_own in Hin as Hown.
  assert (Hne : truthy name = true).
  { apply truthy_true. intros ->. done. }
  assert (Hp : surprise_pick (getItem st sticky_key) random = Some name).
  { unfold surprise_pick, get_property. by rewrite Hs, Hne, Hown. }
  unfold applyTheme. rewrite decide_True by done.
  rewrite Hp, String_of_Some, (setItem_same _ _ _ Hq Hs).
  unfold get_property. rewrite Hown.
  destruct (write_tokens_own tokens style) as (style' & Hw & Ha).
  cbn [bind]. rewrite Hw. cbn [bind]. eauto.
Qed.

(** The second part of C1: with such a sticky record every call gives the
    same tokens. *)
Lemma applyTheme_sticky_again st style random random' (name : string) tokens :
  within_quota st ->
  getItem st sticky_key = Some name ->
  (name, tokens) ∈ SURPRISE_PALETTES ->
  exists style1 style2,
    applyTheme "surprise" random st style = Return (st, style1) /\
    applyTheme "surprise" random' st style1 = Return (st, style2) /\
    applied style1 = Some tokens /\ applied style2 = Some tokens.
Proof.
  intros Hq Hs Hin.
  destruct (applyTheme_sticky st style random name tokens Hq Hs Hin) as (s1 & H1 & A1).
  destruct (applyTheme_sticky st s1 random' name tokens Hq Hs Hin) as (s2 & H2 & A2).
  by exists s1, s2.
Qed.

(** The third part of C1 where it holds: with no sticky record, or one that
    reads no property of the palettes at all, a palette is drawn; its name
    is written and its tokens are applied when the write does not throw, and
    nothing is applied when it throws. *)
Lemma applyTheme_fresh st style random :
  (0 <= random)%Q -> (random < 1)%Q ->
  (getItem st sticky_key = None \/
   exists saved, getItem st sticky_key = Some saved /\
                 get_property SURPRISE_PALETTES saved = Undefined) ->
  exists name tokens,
    (name, tokens) ∈ SURPRISE_PALETTES /\
    (forall st', setItem st sticky_key name = Return st' ->
       getItem st' sticky_key = Some name /\
       exists style', applyTheme "surprise" random st style = Return (st', style') /\
                      applied style' = Some tokens) /\
    (setItem st sticky_key name = Throw ->
       applyTheme "surprise" random st style = Throw).
Proof.
  intros H0 H1 Hs.
  destruct (random_pick random H0 H1) as (name & tokens & Hpick & Hown).
  exists name, tokens. split; [by apply palette_own |].
  assert (Hp : surprise_pick (getItem st sticky_key) random = Some name).
  { unfold surprise_pick.
    destruct Hs as [-> | (saved & -> & Hu)]; [done |].
    rewrite Hu. simpl. by rewrite andb_false_r. }
  unfold applyTheme. rewrite decide_True by done.
  rewrite Hp, String_of_Some. split.
  - intros st' Hw. split; [by eapply getItem_setItem |].
    rewrite Hw. unfold get_property. rewrite Hown.
    destruct (write_tokens_own tokens style) as (style' & Hw' & Ha).
    cbn [bind]. rewrite Hw'. cbn [bind]. eauto.
  - intros Hw. by rewrite Hw.
Qed.

(** The names of the members of [Object.prototype] are names of no
    palette, yet a sticky record that holds one is kept. *)
Lemma inherited_not_palette (name : string) :
  name ∈ Object_prototype ->
  (name ∉ Object_keys SURPRISE_PALETTES) /\
  get_property SURPRISE_PALETTES name = Inherited name.
Proof.
  unfold Object_prototype. rewrite !elem_of_cons, elem_of_nil.
  intros H. repeat (destruct H as [-> | H]; [split; [by apply (bool_decide_unpack _) | reflexivity] |]).
  done.
Qed.

Lemma applyTheme_inherited st style random (name : string) :
  within_quota st ->
  getItem st sticky_key = Some name ->
  name ∈ Object_prototype ->
  exists style', applyTheme "surprise" random st style = Return (st, style') /\
    applied style' =
    Some {| bg := "undefined"; fg := "undefined"; card := "undefined";
            muted := "undefined"; accent := "undefined"; ring := "undefined" |}.
Proof.
  intros Hq Hs Hin. apply inherited_not_palette in Hin as [_ Hget].
  assert (Hne : truthy name = true).
  { destruct name; [done | reflexivity]. }
  assert (Hp : surprise_pick (getItem st sticky_key) random = Some name).
  { unfold surprise_pick. by rewrite Hs, Hne, Hget. }
  unfold applyTheme. rewrite decide_True by done.
  rewrite Hp, String_of_Some, (setItem_same _ _ _ Hq Hs), Hget.
  destruct (write_tokens_inherited name style) as (style' & Hw & Ha).
  cbn [bind]. rewrite Hw. cbn [bind]. eauto.
Qed.

(** The three fixed themes: the tokens of the theme are applied, whatever
    the draw, and the storage stays as it is. *)
Lemma applyTheme_fixed (theme : string) tokens random st style :
  (theme, tokens) ∈ THEMES ->
  exists style', applyTheme theme random st style = Return (st, style') /\
                 applied style' = Some tokens.
Proof.
  unfold THEMES. rewrite !elem_of_cons, elem_of_nil.
  intros [[= -> ->] | [[= -> ->] | [[= -> ->] | []]]];
    (eexists; split; [reflexivity |]);
    unfold applied, setProperty; by style_lookup.
Qed.

(** C1 fails where the sticky record names a member of [Object.prototype]:
    the record names no palette, yet [applyTheme] takes it for one, keeps it
    and sets the six custom properties to the text undefined, which are the
    tokens of no palette. *)
Theorem applyTheme_prototype_name :
("constructor" ∉ Object_keys SURPRISE_PALETTES) /\
  exists st' style',
    applyTheme "surprise" (1 # 2) constructor_store ∅ = Return (st', style') /\
    getItem st' sticky_key = Some "constructor" /\
    applied style' =
      Some {| bg := "undefined"; fg := "undefined"; card := "undefined";
              muted := "undefined"; accent := "undefined"; ring := "undefined" |} /\
    forall name tokens, (name, tokens) ∈ SURPRISE_PALETTES -> applied style' <> Some tokens.
Proof.
  split; [by apply (bool_decide_unpack _) |].
  eexists _, _. split; [reflexivity |]. split; [reflexivity |].
  split; [reflexivity |].
  intros name tokens Hin. unfold SURPRISE_PALETTES in Hin.
  rewrite !elem_of_cons, elem_of_nil in Hin.
  destruct Hin as [[= -> ->] | [[= -> ->] | [[= -> ->] | []]]]; discriminate.
Qed.

End Surprise.

(** ** Examples *)

Example filtered_empty_query : filtered DEFAULT_TILES EmptyString = DEFAULT_TILES.
Proof. reflexivity. Qed.

Example filtered_WORK : (id <$> filtered DEFAULT_TILES "WORK") = ["calendar"].
Proof. reflexivity. Qed.

Example filtered_no_match : filtered DEFAULT_TILES "zzz-no-match" = [].
Proof. reflexivity. Qed.

Example move_first_down :
  ((fun l : list Tile => id <$> l) <$> move 0 Down DEFAULT_TILES)
  = Some ["dashboard"; "calendar"; "todo"].
Proof. reflexivity. Qed.

Example move_last_down : move 2 Down DEFAULT_TILES = Some DEFAULT_TILES.
Proof. reflexivity. Qed.

Example slugify_title :
  slugify "  Team Calendar!! v2 " = "team-calendar-v2" /\ slugify "tile-" = "tile".
Proof. split; reflexivity. Qed.

Example new_id_notes : new_id notes_form "0.4fzyo82mvyr" = "notes-4fzy".
Proof. reflexivity. Qed.

Example JSON_text_of_dark :
  JSON_stringify_string "dark" = Return (Some (quoted "dark")) /\
  JSON_parse_string (quoted "dark") = Return "dark" /\
  JSON_parse_string "dark" = Throw /\
  JSON_parse_string EmptyString = Throw.
Proof. repeat split; reflexivity. Qed.

Example surprise_from_nothing :
  exists st' style',
    applyTheme "surprise" (2 # 3) empty_store ∅ = Return (st', style') /\
    getItem st' sticky_key = Some "sunset" /\
    applied style' = own_property SURPRISE_PALETTES "sunset".
Proof. eexists _, _. repeat split; reflexivity. Qed.

(** * More of the launcher *)

(** ** Removing and moving rows *)

Section Rows.

Local Open Scope list_scope.

Implicit Types (prev local next : list Tile) (t : Tile) (f : Form) (i : string).

Lemma remove_cons i t prev :
  remove i (t :: prev) = if decide (id t = i) then remove i prev else t :: remove i prev.
Proof.
  unfold remove. simpl. case_decide.
  - by rewrite bool_decide_eq_true_2.
  - by rewrite bool_decide_eq_false_2.
Qed.

Lemma remove_filter i prev :
  remove i prev = filter (fun t => id t <> i) prev.
Proof.
  unfold remove. induction prev as [|t prev IH]; [done |].
  simpl. rewrite filter_cons, IH.
  destruct (decide (id t = i)) as [Heq | Hne].
  - rewrite bool_decide_eq_true_2 by done. simpl. by rewrite decide_False by tauto.
  - rewrite bool_decide_eq_false_2 by done. simpl. by rewrite decide_True.
Qed.

Lemma remove_absent i prev : i ∉ ids prev -> remove i prev = prev.
Proof.
  unfold ids. induction prev as [|t prev IH]; [done |].
  rewrite fmap_cons, not_elem_of_cons. intros [Hne Hprev].
  unfold remove in *. simpl.
  rewrite bool_decide_eq_false_2 by done. simpl. by rewrite IH.
Qed.

Lemma remove_ids i prev : ids (remove i prev) = filter (fun x => x <> i) (ids prev).
Proof.
  unfold ids. rewrite remove_filter.
  induction prev as [|t prev IH]; [done |].
  rewrite fmap_cons, !filter_cons, <- IH.
  by destruct (decide (id t <> i)).
Qed.

Lemma remove_NoDup i prev : NoDup (ids prev) -> NoDup (ids (remove i prev)).
Proof. rewrite remove_ids. apply NoDup_filter. Qed.

Lemma remove_spec_sublist i prev : sublist (remove i prev) prev.
Proof. rewrite remove_filter. apply sublist_filter. Qed.

(** [remove] keeps the tiles whose id is another one, in their order,
    and no tile of the result has the id. *)
Theorem remove_spec i prev :
  selects (fun t => id t <> i) prev (remove i prev) /\
  sublist (remove i prev) prev /\
  (i ∉ ids (remove i prev)).
Proof.
  assert (Hsel : selects (fun t => id t <> i) prev (remove i prev)).
  { unfold remove. apply selects_filter. intros t.
    rewrite negb_true_iff, bool_decide_eq_false. done. }
  split; [done |]. split; [by eapply selects_sublist |].
  rewrite remove_ids, list_elem_of_filter. tauto.
Qed.

(** X1: removing an id that no tile has changes nothing, and in a list of
    distinct ids removing the id of a tile takes exactly one tile away. *)
Theorem remove_length i prev :
  (i ∉ ids prev -> remove i prev = prev) /\
  (NoDup (ids prev) -> i ∈ ids prev ->
   S (length (remove i prev)) = length prev).
Proof.
  split; [apply remove_absent |].
  unfold ids. induction prev as [|t prev IH]; intros Hnd Hin.
  - by apply elem_of_nil in Hin.
  - rewrite fmap_cons in Hnd. apply NoDup_cons in Hnd as [Hfresh Hnd].
    rewrite remove_cons.
    destruct (decide (id t = i)) as [Heq | Hne].
    + subst i. simpl. f_equal. by rewrite (remove_absent (id t) prev).
    + simpl. f_equal.
      apply IH; [done |].
      rewrite fmap_cons in Hin. apply elem_of_cons in Hin as [Heq | Hin]; [| done].
      by destruct Hne.
Qed.

Lemma remove_length_witness :
  S (length (remove "dashboard" DEFAULT_TILES)) = length DEFAULT_TILES.
Proof.
  apply (proj2 (remove_length "dashboard" DEFAULT_TILES));
    apply (bool_decide_unpack _); vm_compute; exact I.
Defined.

(** X2: removing the id of a tile that was just added gives the list back
    when no other tile has that id. *)
Theorem remove_addTile f (random36 : string) prev :
  new_id f random36 ∉ ids prev ->
  remove (new_id f random36) (addTile f random36 prev).1 = prev.
Proof.
  intros Hfresh.
  change (addTile f random36 prev).1 with (new_tile f random36 :: prev).
  rewrite remove_cons, decide_True by reflexivity. by apply remove_absent.
Qed.

Lemma remove_addTile_witness :
  remove (new_id notes_form "0.4fzyo82mvyr")
         (addTile notes_form "0.4fzyo82mvyr" DEFAULT_TILES).1 = DEFAULT_TILES.
Proof.
  apply remove_addTile. apply (bool_decide_unpack _). vm_compute. exact I.
Defined.

(** Two inserts that exchange two neighbours. *)
Lemma insert_neighbours {A} (l : list A) (k : nat) (x y : A) :
  l !! k = Some x -> l !! S k = Some y ->
  exists l1 l2, l = l1 ++ x :: y :: l2 /\ length l1 = k /\
                <[S k := x]> (<[k := y]> l) = l1 ++ y :: x :: l2.
Proof.
  revert l. induction k as [|k IH]; intros [|z l] Hx Hy; try done.
  - destruct l as [|z' l]; [done |]. simpl in *.
    injection Hx as ->. injection Hy as ->. by exists [], l.
  - simpl in *. destruct (IH l Hx Hy) as (l1 & l2 & -> & Hlen & Hins).
    exists (z :: l1), l2. simpl. by rewrite Hins, Hlen.
Qed.

(** What [move] gives is the list itself or the list with two neighbours
    exchanged. *)
Lemma move_neighbours (i : nat) (dir : Dir) prev next :
  move i dir prev = Some next ->
  next = prev \/
  exists l1 x y l2,
    prev = l1 ++ x :: y :: l2 /\ next = l1 ++ y :: x :: l2 /\
    (dir = Down /\ length l1 = i \/ dir = Up /\ S (length l1) = i).
Proof.
  unfold move. case_decide as Hj; [intros [= <-]; by left |].
  destruct (prev !! i) as [a|] eqn:Ha; [| done].
  destruct (prev !! Z.to_nat (Z.of_nat i + dir_value dir)) as [b|] eqn:Hb; [| done].
  intros [= <-]. right. destruct dir; simpl in *.
  - destruct i as [|k]; [lia |].
    replace (Z.to_nat (Z.of_nat (S k) + -1)) with k in * by lia.
    destruct (insert_neighbours prev k b a Hb Ha) as (l1 & l2 & Hp & Hlen & Hins).
    exists l1, b, a, l2. split; [done |]. split; [| right; by rewrite Hlen].
    rewrite list_insert_insert_ne by lia. done.
  - replace (Z.to_nat (Z.of_nat i + 1)) with (S i) in * by lia.
    destruct (insert_neighbours prev i a b Ha Hb) as (l1 & l2 & Hp & Hlen & Hins).
    exists l1, a, b, l2. split; [done |]. split; [done | by left].
Qed.

Lemma move_Permutation (i : nat) (dir : Dir) prev next :
  move i dir prev = Some next -> next ≡ₚ prev.
Proof.
  intros [-> | (l1 & x & y & l2 & -> & -> & _)]%move_neighbours; [done |].
  apply Permutation_app_head, perm_swap.
Qed.

Lemma move_NoDup (i : nat) (dir : Dir) prev next :
  move i dir prev = Some next -> NoDup (ids prev) -> NoDup (ids next).
Proof.
  intros Hm%move_Permutation. unfold ids. by rewrite Hm.
Qed.

(** X3: a move rearranges the tiles: the result holds the same tiles, each
    as often as before, with two neighbours exchanged at most, and distinct
    ids stay distinct. *)
Theorem move_rearranges (i : nat) (dir : Dir) prev next :
  move i dir prev = Some next ->
  next ≡ₚ prev /\
  length next = length prev /\
  (NoDup (ids prev) -> NoDup (ids next)) /\
  (next = prev \/
   exists l1 x y l2, prev = l1 ++ x :: y :: l2 /\ next = l1 ++ y :: x :: l2).
Proof.
  intros Hm. split; [by eapply move_Permutation |].
  split; [by rewrite (move_Permutation _ _ _ _ Hm) |].
  split; [by eapply move_NoDup |].
  destruct (move_neighbours _ _ _ _ Hm) as [-> | (l1 & x & y & l2 & H1 & H2 & _)];
    [by left | right; eauto 6].
Qed.

Lemma move_rearranges_witness :
  exists next, move 1 Up DEFAULT_TILES = Some next /\ next ≡ₚ DEFAULT_TILES.
Proof.
  eexists. split; [reflexivity |].
  exact (proj1 (move_rearranges 1 Up DEFAULT_TILES _ eq_refl)).
Defined.

Lemma move_after_swap (l1 l2 : list Tile) (x y : Tile) :
  move (length l1) Down (l1 ++ x :: y :: l2) = Some (l1 ++ y :: x :: l2) /\
  move (S (length l1)) Up (l1 ++ x :: y :: l2) = Some (l1 ++ y :: x :: l2).
Proof.
  assert (Hx : (l1 ++ x :: y :: l2) !! length l1 = Some x).
  { by rewrite lookup_app_r, Nat.sub_diag by lia. }
  assert (Hy : (l1 ++ x :: y :: l2) !! S (length l1) = Some y).
  { rewrite lookup_app_r by lia. by replace (S (length l1) - length l1)%nat with 1%nat by lia. }
  destruct (insert_neighbours _ _ _ _ Hx Hy) as (l1' & l2' & Heq & Hlen & Hins).
  apply app_inj_1 in Heq as [<- [= <-]]; [| done].
  split.
  - rewrite (move_inside (length l1) (S (length l1)) Down _ x y); [by rewrite Hins | simpl; lia | done | done].
  - rewrite (move_inside (S (length l1)) (length l1) Up _ y x); [| simpl; lia | done | done].
    rewrite list_insert_insert_ne by lia. by rewrite Hins.
Qed.

(** X4: a move is undone by the opposite move of the tile from where it
    went: down then up, or up then down, gives the list back. *)
Theorem move_back (i : nat) prev next :
  (move i Down prev = Some next -> (S i < length prev)%nat ->
   move (S i) Up next = Some prev) /\
  (move (S i) Up prev = Some next -> (S i < length prev)%nat ->
   move i Down next = Some prev).
Proof.
  assert (Hcut : (S i < length prev)%nat ->
            exists l1 a b l2, prev = l1 ++ a :: b :: l2 /\ length l1 = i /\
              move i Down prev = Some (l1 ++ b :: a :: l2) /\
              move (S i) Up prev = Some (l1 ++ b :: a :: l2)).
  { intros Hi.
    destruct (lookup_lt_is_Some_2 prev (S i) Hi) as [b Hb].
    destruct (lookup_lt_is_Some_2 prev i) as [a Ha]; [lia |].
    destruct (insert_neighbours prev i a b Ha Hb) as (l1 & l2 & Hp & Hlen & Hins).
    exists l1, a, b, l2. split; [done |]. split; [done |]. split.
    - rewrite (move_inside i (S i) Down prev a b); [by rewrite Hins | simpl; lia | done | done].
    - rewrite (move_inside (S i) i Up prev b a); [| simpl; lia | done | done].
      rewrite list_insert_insert_ne by lia. by rewrite Hins. }
  split; intros Hm Hi;
    destruct (Hcut Hi) as (l1 & a & b & l2 & -> & <- & Hdown & Hup).
  - rewrite Hdown in Hm. injection Hm as <-. apply move_after_swap.
  - rewrite Hup in Hm. injection Hm as <-. apply move_after_swap.
Qed.

Lemma move_back_witness :
  exists next, move 0 Down DEFAULT_TILES = Some next /\
               move 1 Up next = Some DEFAULT_TILES.
Proof.
  eexists. split; [reflexivity |].
  apply (proj1 (move_back 0 DEFAULT_TILES _)); [reflexivity |].
  unfold DEFAULT_TILES. simpl. lia.
Defined.

Lemma click_keeps (c : row_click) local local' :
  click c local = Some local' ->
  (NoDup (ids local) -> NoDup (ids local')) /\
  local' ⊆ local /\
  (length local' <= length local)%nat.
Proof.
  destruct c as [i | k dir]; simpl.
  - intros [= <-]. split; [apply remove_NoDup |].
    pose proof (remove_spec_sublist i local) as Hsub.
    split; [by apply sublist_subseteq | by apply sublist_length].
  - intros Hm. split; [by eapply move_NoDup |].
    apply move_Permutation in Hm. split.
    + intros x Hx. by rewrite <- Hm.
    + by rewrite (Permutation_length Hm).
Qed.

(** X5: whatever rows are removed and moved, in whatever order, the list
    keeps distinct ids distinct, holds only tiles it held before and does
    not grow. *)
Theorem clicks_keep (cs : list row_click) local local' :
  clicks cs local = Some local' ->
  (NoDup (ids local) -> NoDup (ids local')) /\
  local' ⊆ local /\
  (length local' <= length local)%nat.
Proof.
  revert local. induction cs as [|c cs IH]; intros local; simpl.
  - intros [= <-]. done.
  - destruct (click c local) as [local1|] eqn:Hc; [| done].
    intros Hrest. apply click_keeps in Hc as (Hnd1 & Hsub1 & Hlen1).
    destruct (IH _ Hrest) as (Hnd & Hsub & Hlen).
    split; [auto |]. split; [by etrans | lia].
Qed.

Lemma clicks_keep_witness :
  exists local',
    clicks [ClickMove 0 Down; ClickRemove "todo"; ClickMove 1 Up] DEFAULT_TILES
      = Some local' /\
    NoDup (ids local').
Proof.
  eexists. split; [reflexivity |].
  refine (proj1 (clicks_keep [ClickMove 0 Down; ClickRemove "todo"; ClickMove 1 Up]
                   DEFAULT_TILES _ eq_refl) _).
  apply (bool_decide_unpack _). vm_compute. exact I.
Defined.

Lemma NoDup_ids_eq local (t u : Tile) :
  NoDup (ids local) -> t ∈ local -> u ∈ local -> id t = id u -> t = u.
Proof.
  unfold ids. induction local as [|x local IH]; intros Hnd Ht Hu Hid.
  - by apply elem_of_nil in Ht.
  - rewrite fmap_cons in Hnd. apply NoDup_cons in Hnd as [Hx Hnd].
    apply elem_of_cons in Ht as [-> | Ht]; apply elem_of_cons in Hu as [-> | Hu].
    + done.
    + destruct Hx. rewrite Hid. by apply list_elem_of_fmap_2.
    + destruct Hx. rewrite <- Hid. by apply list_elem_of_fmap_2.
    + by apply IH.
Qed.

Lemma onSave_absent (updated : Tile) prev :
  id updated ∉ ids prev -> onSave updated prev = prev.
Proof.
  unfold ids, onSave. induction prev as [|t prev IH]; [done |].
  rewrite !fmap_cons, not_elem_of_cons. intros [Hne Hprev].
  rewrite decide_False by done. by rewrite IH.
Qed.

(** X6: in a list of distinct ids, saving a tile as it stands in the list
    changes nothing; saving a tile whose id the list no longer holds changes
    nothing either; and saving keeps distinct ids distinct. *)
Theorem onSave_same (t : Tile) prev :
  (NoDup (ids prev) -> t ∈ prev -> onSave t prev = prev) /\
  (id t ∉ ids prev -> onSave t prev = prev) /\
  (NoDup (ids prev) -> NoDup (ids (onSave t prev))).
Proof.
  split; [| split; [apply onSave_absent |]].
  - intros Hnd Ht. unfold onSave.
    rewrite <- (list_fmap_id prev) at 2.
    apply list_fmap_ext. intros k u Hu. simpl.
    case_decide as Hid; [| done].
    symmetry. eapply NoDup_ids_eq; [done | | done | done].
    by eapply list_elem_of_lookup_2.
  - unfold ids. by rewrite onSave_ids.
Qed.

Lemma onSave_same_witness :
  match DEFAULT_TILES with
  | t :: _ => onSave t DEFAULT_TILES = DEFAULT_TILES
  | [] => True
  end.
Proof.
  unfold DEFAULT_TILES at 1.
  apply (proj1 (onSave_same _ DEFAULT_TILES)).
  - apply (bool_decide_unpack _). vm_compute. exact I.
  - unfold DEFAULT_TILES. left.
Defined.

Lemma apply_change_id (c : change) (draft : Tile) : id (apply_change c draft) = id draft.
Proof. by destruct c. Qed.

Lemma apply_changes_id (cs : list change) (draft : Tile) :
  id (apply_changes cs draft) = id draft.
Proof.
  unfold apply_changes. revert draft.
  induction cs as [|c cs IH]; intros draft; simpl; [done |].
  by rewrite IH, apply_change_id.
Qed.

(** X7: no change made in the edit form touches the id of the draft, so
    whatever was typed, saving the draft of a tile of the list leaves the
    list of ids as it was and puts the draft where the tile stood. *)
Theorem edit_keeps_ids (cs : list change) (t : Tile) prev (k : nat) :
  id (apply_changes cs t) = id t /\
  ids (onSave (apply_changes cs t) prev) = ids prev /\
  (prev !! k = Some t ->
   onSave (apply_changes cs t) prev !! k = Some (apply_changes cs t)).
Proof.
  split; [apply apply_changes_id |].
  split; [apply onSave_ids |].
  intros Hk. rewrite onSave_lookup, Hk. simpl.
  by rewrite decide_True by (by rewrite apply_changes_id).
Qed.

Lemma edit_keeps_ids_witness :
  (title <$> onSave (apply_changes [ChangeTitle "Tasks"; ChangeTags "a, b"]
                       {| id := "todo"; title := "Todo HQ";
                          subtitle := Some "Capture & do";
                          url := "https://richardsipos.github.io/Tick-And-Top";
                          icon := "CheckSquare";
                          color := "from-amber-500 to-orange-500";
                          tags := Some ["tasks"] |})
                    DEFAULT_TILES !! 2%nat) = Some "Tasks".
Proof.
  rewrite (proj2 (proj2 (edit_keeps_ids _ _ DEFAULT_TILES 2)) eq_refl).
  reflexivity.
Defined.

End Rows.

(** ** The tags inputs *)

Section Tags.

Implicit Types (l : list string) (v : string).

Lemma all_chars_app (P : ascii -> bool) s1 s2 :
  all_chars P (s1 +:+ s2) = all_chars P s1 && all_chars P s2.
Proof.
  induction s1 as [|c s1 IH]; str_simpl; [done |].
  by rewrite IH, andb_assoc.
Qed.

Lemma free_of_app c s1 s2 : free_of c (s1 +:+ s2) <-> free_of c s1 /\ free_of c s2.
Proof. unfold free_of. by rewrite all_chars_app, andb_true_iff. Qed.

Lemma free_of_cons c x s : free_of c (String x s) <-> x <> c /\ free_of c s.
Proof.
  unfold free_of. simpl. by rewrite andb_true_iff, bool_decide_eq_true.
Qed.

Lemma trimStart_fixed s :
  (forall c rest, s = String c rest -> is_space c = false) -> trimStart s = s.
Proof.
  destruct s as [|c s]; [done |]. intros H. simpl. by rewrite (H c s).
Qed.

Lemma trimEnd_fixed s :
  (forall rest c, s = rest +:+ String c EmptyString -> is_space c = false) ->
  trimEnd s = s.
Proof.
  induction s as [|a s IH]; [done |]. intros H. simpl.
  rewrite IH.
  - destruct s as [|b s]; [| done].
    by rewrite (H EmptyString a).
  - intros rest c ->. apply (H (String a rest) c). by str_simpl.
Qed.

(** [trim] changes nothing in a text it has made. *)
Lemma trim_trim s : trim (trim s) = trim s.
Proof.
  destruct (trim_spec s) as (l & r & _ & _ & _ & Hfirst & Hlast).
  unfold trim at 1. by rewrite (trimStart_fixed _ Hfirst), (trimEnd_fixed _ Hlast).
Qed.

Lemma trim_free_of c s : free_of c s -> free_of c (trim s).
Proof.
  destruct (trim_spec s) as (l & r & Hs & _).
  intros H. rewrite Hs in H.
  by apply free_of_app in H as [_ [H _]%free_of_app].
Qed.

Lemma parse_tags_label v : Forall label (parse_tags v).
Proof.
  unfold parse_tags. apply Forall_forall. intros x Hx.
  apply list_elem_of_In, filter_In in Hx as [Hx Hne].
  apply list_elem_of_In, list_elem_of_fmap in Hx as (p & -> & Hp).
  split; [by apply truthy_true |]. split; [apply trim_trim |].
  apply trim_free_of.
  pose proof (split_free_of "," v) as Hfree.
  by eapply Forall_forall in Hfree.
Qed.

(** X8: the tags both forms store are labels: none is empty, none has
    white space at its ends, none holds a comma. *)
Theorem stored_tags_are_labels v f (random36 : string) (draft : Tile) :
  Forall label (parse_tags v) /\
  (exists labels, tags (new_tile f random36) = Some labels /\ Forall label labels) /\
  (exists labels, tags (change_tags v draft) = Some labels /\ Forall label labels).
Proof.
  split; [apply parse_tags_label |]. split.
  - exists (parse_tags (f_tags f)). split; [done | apply parse_tags_label].
  - exists (parse_tags v). split; [done | apply parse_tags_label].
Qed.

Lemma split_free (sep : ascii) s : free_of sep s -> split sep s = [s].
Proof.
  induction s as [|c s IH]; [done |].
  intros [Hc Hs]%free_of_cons. simpl.
  rewrite decide_False by done. by rewrite IH.
Qed.

Lemma split_app_sep (sep : ascii) s1 s2 :
  free_of sep s1 -> split sep (s1 +:+ String sep s2) = s1 :: split sep s2.
Proof.
  induction s1 as [|c s1 IH]; str_simpl.
  - intros _. by rewrite decide_True.
  - intros [Hc Hs]%free_of_cons.
    rewrite decide_False by done. by rewrite IH.
Qed.

Lemma split_join_spaced x l :
  Forall (free_of ",") (x :: l) ->
  split "," (Array_join ", " (x :: l)) = x :: (String " " <$> l).
Proof.
  revert x. induction l as [|y l IH]; intros x Hfree.
  - simpl. apply split_free. by inversion Hfree.
  - inversion Hfree as [|? ? Hx Hrest]; subst.
    change (Array_join ", " (x :: y :: l))
      with (x +:+ String "," (String " " (Array_join ", " (y :: l)))).
    rewrite split_app_sep by done.
    cbn [split]. rewrite decide_False by done.
    by rewrite (IH y Hrest).
Qed.

Lemma trim_space s : trim (String " " s) = trim s.
Proof. reflexivity. Qed.

Lemma trim_spaced l :
  Forall label l -> List.filter truthy (trim <$> (String " " <$> l)) = l.
Proof.
  induction 1 as [|y l (Hy & Hty & _) _ IH]; [done |].
  rewrite !fmap_cons, trim_space, Hty. simpl.
  by rewrite (proj2 (truthy_true y) Hy), IH.
Qed.

Lemma parse_tags_join l : Forall label l -> parse_tags (Array_join ", " l) = l.
Proof.
  intros Hl. destruct l as [|x l]; [done |].
  unfold parse_tags. rewrite split_join_spaced.
  - inversion Hl as [|? ? (Hne & Htrim & _) Hrest]; subst.
    rewrite fmap_cons, Htrim. simpl.
    by rewrite (proj2 (truthy_true x) Hne), trim_spaced.
  - eapply Forall_impl; [done |]. by intros s (_ & _ & H).
Qed.

(** X9: the tags input of the edit form shows the labels with a comma and
    a space between them, and reading that text gives the labels back (a
    label is not empty, has none of the white space of [trim] at its ends,
    the no-break space included, and holds no comma); so a draft whose tags
    came from a form keeps them when its tags input is read again. *)
Theorem tags_round_trip l v (draft : Tile) :
  (Forall label l -> parse_tags (Array_join ", " l) = l) /\
  parse_tags (tags_value (change_tags v draft)) = parse_tags v /\
  change_tags (tags_value (change_tags v draft)) (change_tags v draft)
    = change_tags v draft.
Proof.
  split; [apply parse_tags_join |].
  assert (H : parse_tags (tags_value (change_tags v draft)) = parse_tags v).
  { unfold tags_value. simpl. apply parse_tags_join, parse_tags_label. }
  split; [done |].
  unfold change_tags at 1. rewrite H. reflexivity.
Qed.

Lemma tags_round_trip_witness :
  parse_tags (Array_join ", " ["work"; "planning"; "q3"]) = ["work"; "planning"; "q3"].
Proof.
  apply (proj1 (tags_round_trip ["work"; "planning"; "q3"] EmptyString
                  {| id := "x"; title := "x"; subtitle := None; url := "x";
                     icon := "x"; color := "x"; tags := None |})).
  repeat constructor; try discriminate; reflexivity.
Defined.

End Tags.

(** ** Slugs and new ids *)

Section Slugs.

Lemma dashed_dash_runs (in_run : bool) s : dashed in_run (dash_runs in_run s) = true.
Proof.
  revert in_run. induction s as [|c s IH]; intros in_run; [done |].
  simpl. destruct (is_slug_char c) eqn:Hc.
  - simpl. rewrite decide_False by (intros ->; done). by rewrite Hc, IH.
  - destruct in_run; [apply IH |]. simpl. apply IH.
Qed.

Lemma dashed_weaken s : dashed true s = true -> dashed false s = true.
Proof.
  destruct s as [|c s]; [done |]. simpl. case_decide; [done | done].
Qed.

Lemma dashed_strip_leading s :
  dashed false s = true -> dashed true (strip_leading_dash s) = true.
Proof.
  destruct s as [|c s]; [done |].
  destruct (decide (c = "-"%char)) as [-> | Hc].
  - simpl. done.
  - intros H.
    assert (strip_leading_dash (String c s) = String c s) as ->.
    { destruct c as [[] [] [] [] [] [] [] []]; try done. }
    simpl in *. by rewrite decide_False in * by done.
Qed.

Lemma dashed_strip_trailing (b : bool) s :
  dashed b s = true -> dashed b (strip_trailing_dash s) = true.
Proof.
  revert b. induction s as [|c s IH]; intros b; [done |].
  destruct s as [|c' s].
  - intros H. cbn [strip_trailing_dash]. by case_decide.
  - intros H. change (strip_trailing_dash (String c (String c' s)))
      with (String c (strip_trailing_dash (String c' s))).
    cbn [dashed] in *. case_decide.
    + apply andb_true_iff in H as [-> H]. simpl. by apply IH.
    + apply andb_true_iff in H as [-> H]. simpl. by apply IH.
Qed.

Lemma dashed_tail (b : bool) c s : dashed b (String c s) = true -> exists b', dashed b' s = true.
Proof.
  simpl. case_decide as Hc; intros [_ Hd]%andb_true_iff; eauto.
Qed.

Lemma strip_trailing_last (b : bool) s p :
  dashed b s = true -> strip_trailing_dash s <> p +:+ "-".
Proof.
  revert b p. induction s as [|c s IH]; intros b p Hd.
  - simpl. destruct p; str_simpl; discriminate.
  - destruct s as [|c' s].
    + cbn [strip_trailing_dash]. case_decide as Hc.
      * destruct p; str_simpl; discriminate.
      * destruct p as [|x p]; str_simpl; [congruence |].
        intros [= _ H]. destruct p; str_simpl; discriminate.
    + change (strip_trailing_dash (String c (String c' s)))
        with (String c (strip_trailing_dash (String c' s))).
      destruct p as [|x p]; str_simpl.
      * intros [= -> H]. cbn [dashed] in Hd.
        rewrite decide_True in Hd by done.
        apply andb_true_iff in Hd as [_ Hd].
        case_decide as Hc'; [done |].
        destruct s; cbn [strip_trailing_dash] in H; discriminate.
      * intros [= _ H]. destruct (dashed_tail _ _ _ Hd) as [b' Hd'].
        by apply (IH b' p).
Qed.

Lemma dashed_alphabet (b : bool) s :
  dashed b s = true ->
  all_chars (fun c => is_slug_char c || bool_decide (c = "-"%char)) s = true.
Proof.
  revert b. induction s as [|c s IH]; intros b; [done |].
  simpl. case_decide as Hc.
  - intros [_ H]%andb_true_iff. rewrite bool_decide_eq_true_2 by done.
    rewrite orb_true_r. simpl. by eapply IH.
  - intros [-> H]%andb_true_iff. simpl. by eapply IH.
Qed.

Lemma dashed_no_pair (b : bool) s : dashed b s = true -> ~ substring_of "--" s.
Proof.
  revert b. induction s as [|c s IH]; intros b H (pre & post & Hs).
  - destruct pre; str_simpl; discriminate.
  - destruct pre as [|x pre]; str_simpl.
    + injection Hs as -> ->. str_simpl. simpl in H.
      by rewrite andb_false_r in H.
    + injection Hs as -> ->. simpl in H.
      case_decide; apply andb_true_iff in H as [_ H];
        eapply IH; eauto; by exists pre, post.
Qed.

Lemma slugify_dashed s : dashed true (slugify s) = true.
Proof.
  unfold slugify. apply dashed_strip_trailing, dashed_strip_leading, dashed_dash_runs.
Qed.

(** X10: a slug is made of small letters, digits and dashes, has no dash
    at its start or at its end and no two dashes in a row. *)
Theorem slugify_shape s :
  all_chars (fun c => is_slug_char c || bool_decide (c = "-"%char)) (slugify s) = true /\
  (forall rest, slugify s <> String "-" rest) /\
  (forall rest, slugify s <> rest +:+ "-") /\
  ~ substring_of "--" (slugify s).
Proof.
  pose proof (slugify_dashed s) as H.
  split; [by eapply dashed_alphabet |].
  split; [| split; [| by eapply dashed_no_pair]].
  2:{ intros rest. unfold slugify.
      eapply (strip_trailing_last true), dashed_strip_leading, dashed_dash_runs. }
  intros rest Heq. rewrite Heq in H. simpl in H. done.
Qed.

Lemma lower_slug_char c : is_slug_char c || bool_decide (c = "-"%char) = true -> lower_char c = c.
Proof.
  destruct c as [[] [] [] [] [] [] [] []]; try done.
Qed.

Lemma dashed_toLowerCase (b : bool) s : dashed b s = true -> toLowerCase s = s.
Proof.
  intros H%dashed_alphabet. induction s as [|c s IH]; [done |].
  simpl in *. apply andb_true_iff in H as [Hc H].
  by rewrite (lower_slug_char c Hc), IH.
Qed.

Lemma dashed_dash_runs_id (b : bool) s : dashed b s = true -> dash_runs b s = s.
Proof.
  revert b. induction s as [|c s IH]; intros b; [done |].
  simpl. case_decide as Hc.
  - subst c. simpl. intros [Hb H]%andb_true_iff.
    apply negb_true_iff in Hb as ->. by rewrite IH.
  - intros [-> H]%andb_true_iff. by rewrite IH.
Qed.

Lemma strip_trailing_id s :
  (forall rest, s <> rest +:+ "-") -> strip_trailing_dash s = s.
Proof.
  induction s as [|c s IH]; [done |]. intros H.
  destruct s as [|c' s].
  - simpl. case_decide as Hc; [| done]. subst c. by destruct (H EmptyString).
  - change (strip_trailing_dash (String c (String c' s)))
      with (String c (strip_trailing_dash (String c' s))).
    rewrite IH; [done |]. intros rest Heq. apply (H (String c rest)).
    str_simpl. by rewrite Heq.
Qed.

(** X11: the slug of a slug is the slug itself. *)
Theorem slugify_slugify s : slugify (slugify s) = slugify s.
Proof.
  pose proof (slugify_dashed s) as H.
  assert (Hlast : forall rest, slugify s <> rest +:+ "-").
  { intros rest. unfold slugify.
    eapply (strip_trailing_last true), dashed_strip_leading, dashed_dash_runs. }
  unfold slugify at 1.
  rewrite (dashed_toLowerCase _ _ H).
  rewrite (dashed_dash_runs_id false) by by apply dashed_weaken.
  assert (strip_leading_dash (slugify s) = slugify s) as ->.
  { destruct (slugify s) as [|c r]; [done |].
    simpl in H. case_decide; [done |].
    destruct c as [[] [] [] [] [] [] [] []]; try done. }
  by apply strip_trailing_id.
Qed.

Lemma free_of_not_app c s pre post : free_of c s -> s <> pre +:+ String c post.
Proof.
  intros H ->. apply free_of_app in H as [_ H].
  apply free_of_cons in H as [H _]. done.
Qed.

(** X12: a new id holds a dash, so it is none of the ids without a dash:
    adding a tile to a list of distinct ids that hold no dash, as the ids of
    the default tiles, gives distinct ids whatever the title and the draw. *)
Theorem addTile_fresh f (random36 : string) (prev : list Tile) :
  Forall (free_of "-") (ids prev) ->
  NoDup (ids prev) ->
  (new_id f random36 ∉ ids prev) /\
  NoDup (ids (addTile f random36 prev).1).
Proof.
  intros Hfree Hnd.
  assert (Hfresh : new_id f random36 ∉ ids prev).
  { intros Hin. eapply Forall_forall in Hfree; [| done].
    by apply (free_of_not_app _ _ (slugify (or_else (f_title f) "tile-"))
                (slice 2 6 random36)) in Hfree. }
  split; [done |].
  unfold ids. simpl. apply NoDup_cons. by split.
Qed.

Lemma addTile_fresh_witness :
  NoDup (ids (addTile notes_form "0.4fzyo82mvyr" DEFAULT_TILES).1).
Proof.
  apply (addTile_fresh notes_form "0.4fzyo82mvyr" DEFAULT_TILES).
  - repeat constructor.
  - apply (bool_decide_unpack _). vm_compute. exact I.
Defined.

End Slugs.

(** ** The quote of the day *)

Section Quote.

Local Open Scope Z_scope.

Lemma to_int32_range z : - 2 ^ 31 <= to_int32 z < 2 ^ 31.
Proof.
  unfold to_int32. pose proof (Z.mod_pos_bound (z + 2 ^ 31) (2 ^ 32)). lia.
Qed.

Lemma to_int32_small z : - 2 ^ 31 <= z < 2 ^ 31 -> to_int32 z = z.
Proof.
  intros H. unfold to_int32. rewrite Z.mod_small by lia. lia.
Qed.

Lemma to_int32_mod z : to_int32 z mod 2 ^ 32 = z mod 2 ^ 32.
Proof.
  unfold to_int32. rewrite Zminus_mod_idemp_l. f_equal. lia.
Qed.

Lemma to_int32_congr x y : x mod 2 ^ 32 = y mod 2 ^ 32 -> to_int32 x = to_int32 y.
Proof.
  intros H. unfold to_int32.
  by rewrite (Zplus_mod x), H, <- Zplus_mod.
Qed.

Lemma base31_congr a b s :
  a mod 2 ^ 32 = b mod 2 ^ 32 -> base31 a s mod 2 ^ 32 = base31 b s mod 2 ^ 32.
Proof.
  revert a b. induction s as [|c s IH]; intros a b H; [done |].
  simpl. apply IH.
  by rewrite (Zplus_mod (a * 31)), (Zmult_mod a), H, <- Zmult_mod, <- Zplus_mod.
Qed.

Lemma hash_loop_range h s :
  - 2 ^ 31 <= h < 2 ^ 31 -> - 2 ^ 31 <= hash_loop h s < 2 ^ 31.
Proof.
  revert h. induction s as [|c s IH]; intros h Hh; [done |].
  simpl. apply IH, to_int32_range.
Qed.

Lemma hash_loop_base31 h s :
  - 2 ^ 31 <= h < 2 ^ 31 -> hash_loop h s = to_int32 (base31 h s).
Proof.
  revert h. induction s as [|c s IH]; intros h Hh.
  - simpl. by rewrite to_int32_small.
  - cbn [hash_loop base31]. rewrite IH by apply to_int32_range.
    apply to_int32_congr, base31_congr.
    rewrite to_int32_mod, (to_int32_small h Hh), Z.shiftl_mul_pow2 by lia.
    unfold charCodeAt.
    rewrite <- Zplus_mod_idemp_l, <- Zminus_mod_idemp_l, to_int32_mod,
      Zminus_mod_idemp_l, Zplus_mod_idemp_l.
    f_equal. lia.
Qed.

(** X13: [hash] is the absolute value of the 32 bit integer that the
    characters of the text give as digits of a number in base 31. *)
Theorem hash_base31 (str : string) : hash str = Z.abs (to_int32 (base31 0 str)).
Proof.
  unfold hash. by rewrite hash_loop_base31 by lia.
Qed.

Lemma hash_range (str : string) : 0 <= hash str <= 2 ^ 31.
Proof.
  unfold hash. pose proof (hash_loop_range 0 str). lia.
Qed.

(** X14: the hash of a text lies between 0 and 2^31, and the memo [quote]
    always finds a quote of the list, whatever the key. *)
Theorem quote_defined (key : string) :
  0 <= hash key <= 2 ^ 31 /\
  exists q, quote key = Some q /\ q ∈ QUOTES.
Proof.
  pose proof (hash_range key) as Hh. split; [done |].
  unfold quote. rewrite (Z.abs_eq (hash key)) by lia.
  change (Z.of_nat (length QUOTES)) with 6.
  pose proof (Z.rem_bound_pos (hash key) 6 ltac:(lia) ltac:(lia)) as Hr.
  unfold array_get.
  destruct (Z.ltb_spec (Z.rem (hash key) 6) 0) as [Hneg | _]; [lia |].
  destruct (QUOTES !! Z.to_nat (Z.rem (hash key) 6)) as [q|] eqn:Hq.
  - exists q. split; [done |]. by eapply list_elem_of_lookup_2.
  - apply lookup_ge_None in Hq. simpl in Hq. lia.
Qed.

End Quote.

Section DayKey.

Lemma free_of_digits (d : Decimal.uint) :
  free_of "-" (NilEmpty.string_of_uint d).
Proof.
  induction d as [|d IH|d IH|d IH|d IH|d IH|d IH|d IH|d IH|d IH|d IH];
    simpl; [reflexivity | ..];
    (apply free_of_cons; split; [discriminate | exact IH]).
Qed.

Lemma decimal_digits (n : N) : free_of "-" (decimal n).
Proof.
  unfold decimal, NilZero.string_of_uint.
  destruct (N.to_uint n); try done; apply free_of_digits.
Qed.

Lemma to_uint_not_Nil (n : N) : N.to_uint n <> Decimal.Nil.
Proof.
  destruct n as [|p]; [done |]. apply DecimalPos.Unsigned.to_uint_nonnil.
Qed.

Lemma decimal_inj (n n' : N) : decimal n = decimal n' -> n = n'.
Proof.
  unfold decimal, NilZero.string_of_uint. intros H.
  apply DecimalN.Unsigned.to_uint_inj.
  pose proof (to_uint_not_Nil n). pose proof (to_uint_not_Nil n').
  assert (NilEmpty.string_of_uint (N.to_uint n)
          = NilEmpty.string_of_uint (N.to_uint n')) as Heq.
  { destruct (N.to_uint n), (N.to_uint n'); done. }
  apply (f_equal NilEmpty.uint_of_string) in Heq.
  rewrite !NilEmpty.usu in Heq. by injection Heq.
Qed.

Lemma append_sep_inj c (a a' b b' : string) :
  free_of c a -> free_of c a' ->
  a +:+ String c b = a' +:+ String c b' -> a = a' /\ b = b'.
Proof.
  revert a'. induction a as [|x a IH]; intros [|x' a']; str_simpl.
  - intros _ _ [= ->]. done.
  - intros _ [Hx' _]%free_of_cons [= <- _]. done.
  - intros [Hx _]%free_of_cons _ [= -> _]. done.
  - intros [_ Ha]%free_of_cons [_ Ha']%free_of_cons [= -> H].
    destruct (IH a' Ha Ha' H) as [-> ->]. done.
Qed.

(** X15: two days have the same key only when their year, month and day
    of the month are the same. *)
Theorem dayKey_inj (year month date year' month' date' : N) :
  dayKey year month date = dayKey year' month' date' ->
  year = year' /\ month = month' /\ date = date'.
Proof.
  unfold dayKey. intros H.
  apply append_sep_inj in H as [Hy H]; [| apply decimal_digits ..].
  apply append_sep_inj in H as [Hm Hd]; [| apply decimal_digits ..].
  apply decimal_inj in Hy, Hm, Hd. split; [done |]. split; [lia | done].
Qed.

Lemma dayKey_inj_witness : (2026 = 2026 /\ 10 = 10 /\ 3 = 3)%N.
Proof. apply (dayKey_inj 2026 10 3 2026 10 3). reflexivity. Defined.

End DayKey.

(** ** More on the search filter *)

Section SearchMore.

Implicit Types (tiles : list Tile) (t : Tile) (query : string).

Lemma same_letter_space c1 c2 : same_letter c1 c2 -> is_space c1 = is_space c2.
Proof.
  intros [-> | [[H1 H] | [H2 H]]]; [done | |];
    apply eq_true_iff_eq; rewrite !is_space_spec;
    [apply is_capital_spec in H1 | apply is_capital_spec in H2]; lia.
Qed.

Lemma same_text_blank (q q' : string) : same_text q q' -> blank q <-> blank q'.
Proof.
  unfold blank. induction 1 as [|a b s1 s2 Hab _ IH]; [done |].
  simpl. rewrite (same_letter_space a b Hab), !andb_true_iff. tauto.
Qed.

(** X16: the filter does not look at the case of the letters of the query:
    two queries that are the same text, case aside, select the same tiles. *)
Theorem filtered_any_case tiles (query query' : string) :
  same_text query query' -> filtered tiles query = filtered tiles query'.
Proof.
  intros Hsame. unfold filtered.
  assert (truthy (trim query) = truthy (trim query')) as ->.
  { apply same_text_blank in Hsame as Hb.
    destruct (truthy (trim query)) eqn:H1, (truthy (trim query')) eqn:H2;
      [done | | | done].
    - apply truthy_true in H1. apply truthy_false, trim_empty, Hb, trim_empty in H2. done.
    - apply truthy_true in H2. apply truthy_false, trim_empty, Hb, trim_empty in H1. done. }
  by rewrite (proj2 (toLowerCase_eq query query') Hsame).
Qed.

Lemma filtered_any_case_witness :
  filtered DEFAULT_TILES "WoRk" = filtered DEFAULT_TILES "work".
Proof.
  apply filtered_any_case.
  repeat (constructor; [first [by left | right; left; split; reflexivity] |]).
  constructor.
Defined.

Lemma filter_twice {A} (f : A -> bool) (l : list A) :
  List.filter f (List.filter f l) = List.filter f l.
Proof.
  induction l as [|x l IH]; [done |].
  simpl. destruct (f x) eqn:Hx; [| done]. simpl. by rewrite Hx, IH.
Qed.

Lemma filter_swap {A} (f g : A -> bool) (l : list A) :
  List.filter f (List.filter g l) = List.filter g (List.filter f l).
Proof.
  induction l as [|x l IH]; [done |].
  simpl. destruct (g x) eqn:Hg, (f x) eqn:Hf; simpl; rewrite ?Hg, ?Hf, IH; done.
Qed.

(** X17: filtering what the filter gave changes nothing, and removing a
    tile before the search or after it gives the same rows; the rows keep
    the ids distinct when the collection has them distinct. *)
Theorem filtered_again tiles query (i : string) :
  filtered (filtered tiles query) query = filtered tiles query /\
  filtered (remove i tiles) query = remove i (filtered tiles query) /\
  (NoDup (ids tiles) -> NoDup (ids (filtered tiles query))).
Proof.
  unfold filtered. destruct (negb (truthy (trim query))); simpl.
  - done.
  - split; [apply filter_twice |]. split; [apply filter_swap |].
    unfold ids. intros Hnd. eapply sublist_NoDup; [exact Hnd |].
    apply fmap_sublist.
    clear. induction tiles as [|t tiles IH]; [done |].
    simpl. destruct (matches _ t); by constructor.
Qed.

Lemma filtered_again_witness : NoDup (ids (filtered DEFAULT_TILES "a")).
Proof.
  apply (proj2 (proj2 (filtered_again DEFAULT_TILES "a" EmptyString))).
  apply (bool_decide_unpack _). vm_compute. exact I.
Defined.

End SearchMore.

(** ** More on applying a theme *)

Section ApplyMore.

Implicit Types (st : Storage) (style : Style) (random : Q) (tokens : ThemeTokens)
  (theme : string).

Ltac style_lookup :=
  repeat (rewrite lookup_insert_eq || rewrite lookup_insert_ne by done).

Lemma not_custom (name : string) :
  name ∉ custom_properties ->
  "--bg" <> name /\ "--fg" <> name /\ "--card" <> name /\
  "--muted" <> name /\ "--accent" <> name /\ "--ring" <> name.
Proof.
  unfold custom_properties. rewrite !not_elem_of_cons.
  intros (? & ? & ? & ? & ? & ? & _). repeat split; congruence.
Qed.

(** What [write_tokens] gives when it does not throw: six inserts. *)
Lemma write_tokens_inserts (p : property ThemeTokens) style style' :
  write_tokens p style = Return style' ->
  exists v1 v2 v3 v4 v5 v6 : string,
    style' = <["--ring" := v6]> (<["--accent" := v5]> (<["--muted" := v4]>
             (<["--card" := v3]> (<["--fg" := v2]> (<["--bg" := v1]> style))))) /\
    forall style0, write_tokens p style0 =
      Return (<["--ring" := v6]> (<["--accent" := v5]> (<["--muted" := v4]>
             (<["--card" := v3]> (<["--fg" := v2]> (<["--bg" := v1]> style0)))))).
Proof.
  destruct p as [t | name |]; [| | done]; intros [= <-].
  - exists (bg t), (fg t), (card t), (muted t), (accent t), (ring t). done.
  - by exists "undefined", "undefined", "undefined", "undefined", "undefined", "undefined".
Qed.

Lemma write_tokens_frame (p : property ThemeTokens) style style' (name : string) :
  write_tokens p style = Return style' ->
  name ∉ custom_properties -> style' !! name = style !! name.
Proof.
  intros (v1 & v2 & v3 & v4 & v5 & v6 & -> & _)%write_tokens_inserts
         (? & ? & ? & ? & ? & ?)%not_custom.
  by rewrite !lookup_insert_ne.
Qed.

Lemma write_tokens_again (p : property ThemeTokens) style style' :
  write_tokens p style = Return style' -> write_tokens p style' = Return style'.
Proof.
  intros (v1 & v2 & v3 & v4 & v5 & v6 & -> & Hw)%write_tokens_inserts.
  rewrite Hw. f_equal. apply map_eq. intros k.
  rewrite !lookup_insert. repeat case_decide; congruence.
Qed.

(** For light, dark and grafit, [applyTheme] sets the six custom
    properties to the tokens of the theme, whatever the draw and the
    storage, and leaves the storage as it is. *)
Theorem applyTheme_named theme tokens random st style :
  (theme, tokens) ∈ THEMES ->
  exists style', applyTheme theme random st style = Return (st, style') /\
    applied style' = Some tokens /\
    style' !! "--bg" = Some (bg tokens) /\ style' !! "--fg" = Some (fg tokens) /\
    style' !! "--card" = Some (card tokens) /\ style' !! "--muted" = Some (muted tokens) /\
    style' !! "--accent" = Some (accent tokens) /\ style' !! "--ring" = Some (ring tokens).
Proof.
  unfold THEMES. rewrite !elem_of_cons, elem_of_nil.
  intros [[= -> ->] | [[= -> ->] | [[= -> ->] | []]]];
    (eexists; split; [reflexivity |]);
    unfold applied, setProperty; by style_lookup.
Qed.

Lemma applyTheme_named_witness :
  exists style', applyTheme "light" (1 # 3) full_store ∅ = Return (full_store, style') /\
                 style' !! "--bg" = Some "#f7f7fb".
Proof.
  destruct (applyTheme_named "light"
              {| bg := "#f7f7fb"; fg := "#0f1222"; card := "#ffffff";
                 muted := "#6b7280"; accent := "#6366f1"; ring := "#a5b4fc" |}
              (1 # 3) full_store ∅) as (style' & H & _ & Hbg & _).
  - unfold THEMES. set_solver.
  - exists style'. by split.
Defined.

Lemma applyTheme_parts theme random st style st' style' :
  applyTheme theme random st style = Return (st', style') ->
  (theme = "surprise" /\
   setItem st sticky_key (String_of (surprise_pick (getItem st sticky_key) random)) = Return st' /\
   write_tokens (get_property SURPRISE_PALETTES
                   (String_of (surprise_pick (getItem st sticky_key) random))) style
     = Return style') \/
  (theme <> "surprise" /\ st' = st /\
   write_tokens (get_property THEMES theme) style = Return style').
Proof.
  unfold applyTheme. case_decide as Ht.
  - destruct (setItem st _ _) as [st1|] eqn:Hs; [| done]. cbn [bind].
    destruct (write_tokens _ style) as [style1|] eqn:Hw; [| done]. cbn [bind].
    intros [= <- <-]. by left.
  - destruct (write_tokens _ style) as [style1|] eqn:Hw; [| done]. cbn [bind].
    intros [= <- <-]. by right.
Qed.

(** X18: [applyTheme] touches the sticky slot of the storage and the six
    custom properties of the style and nothing else; for a theme other than
    surprise it does not touch the storage at all. *)
Theorem applyTheme_frame theme random st style st' style' :
  applyTheme theme random st style = Return (st', style') ->
  (forall key : string, key <> sticky_key -> getItem st' key = getItem st key) /\
  (theme <> "surprise" -> st' = st) /\
  (forall name : string, name ∉ custom_properties -> style' !! name = style !! name).
Proof.
  intros [(-> & Hs & Hw) | (Hne & -> & Hw)]%applyTheme_parts.
  - split; [| split; [done |]].
    + intros key Hkey. eapply getItem_setItem_ne; [| done]. done.
    + intros name. by eapply write_tokens_frame.
  - split; [done |]. split; [done |].
    intros name. by eapply write_tokens_frame.
Qed.

Lemma applyTheme_frame_witness :
  exists st' style',
    applyTheme "surprise" (1 # 3) light_store {[ "color" := "red" ]} = Return (st', style') /\
    getItem st' "launcher.theme" = getItem light_store "launcher.theme" /\
    style' !! "color" = Some "red".
Proof.
  eexists _, _. split; [reflexivity |].
  destruct (applyTheme_frame "surprise" (1 # 3) light_store {[ "color" := "red" ]} _ _ eq_refl)
    as (Hst & _ & Hstyle).
  split; [by apply Hst |].
  rewrite Hstyle; [reflexivity |].
  apply (bool_decide_unpack _). vm_compute. exact I.
Defined.

Lemma empty_name_undefined :
  get_property SURPRISE_PALETTES EmptyString = Undefined.
Proof. reflexivity. Qed.

(** X19: when [applyTheme] has returned, a second call with the same theme
    returns too and changes neither the storage nor the style, whatever the
    two draws. *)
Theorem applyTheme_again theme random random' st style st' style' :
  applyTheme theme random st style = Return (st', style') ->
  applyTheme theme random' st' style' = Return (st', style').
Proof.
  intros [(-> & Hs & Hw) | (Hne & -> & Hw)]%applyTheme_parts.
  - set (name := String_of (surprise_pick (getItem st sticky_key) random)) in *.
    assert (Hget : getItem st' sticky_key = Some name) by by eapply getItem_setItem.
    assert (Hq : within_quota st') by by eapply setItem_within_quota.
    assert (Hp : property_truthy (get_property SURPRISE_PALETTES name) = true).
    { destruct (get_property SURPRISE_PALETTES name); done. }
    assert (Hn : truthy name = true).
    { destruct name; [| done]. by rewrite empty_name_undefined in Hw. }
    unfold applyTheme. rewrite decide_True by done.
    assert (surprise_pick (getItem st' sticky_key) random' = Some name) as ->.
    { unfold surprise_pick. by rewrite Hget, Hn, Hp. }
    rewrite String_of_Some, (setItem_same _ _ _ Hq Hget). cbn [bind].
    by rewrite (write_tokens_again _ _ _ Hw).
  - unfold applyTheme. rewrite decide_False by done.
    by rewrite (write_tokens_again _ _ _ Hw).
Qed.

Lemma applyTheme_again_witness :
  exists st' style',
    applyTheme "surprise" (2 # 3) empty_store ∅ = Return (st', style') /\
    applyTheme "surprise" (1 # 10) st' style' = Return (st', style').
Proof.
  eexists _, _. split; [reflexivity |].
  exact (applyTheme_again "surprise" (2 # 3) (1 # 10) empty_store ∅ _ _ eq_refl).
Defined.

(** X20: when [applyTheme] has returned for the surprise theme, the sticky
    slot holds a name, and if that name is the name of a palette the six
    custom properties hold the tokens of that palette. *)
Theorem applyTheme_agrees random st style st' style' :
  applyTheme "surprise" random st style = Return (st', style') ->
  exists name : string,
    getItem st' sticky_key = Some name /\
    forall tokens, (name, tokens) ∈ SURPRISE_PALETTES -> applied style' = Some tokens.
Proof.
  intros [(_ & Hs & Hw) | (Hne & _)]%applyTheme_parts; [| done].
  set (name := String_of (surprise_pick (getItem st sticky_key) random)) in *.
  exists name. split; [by eapply getItem_setItem |].
  intros tokens Hown%palette_own.
  unfold get_property in Hw. rewrite Hown in Hw.
  destruct (write_tokens_own tokens style) as (s1 & Hw1 & Ha). congruence.
Qed.

Lemma applyTheme_agrees_witness :
  exists st' style' (name : string),
    applyTheme "surprise" (1 # 2) empty_store ∅ = Return (st', style') /\
    getItem st' sticky_key = Some name.
Proof.
  eexists _, _.
  destruct (applyTheme_agrees (1 # 2) empty_store ∅ _ _ eq_refl) as (name & Hn & _).
  exists name. split; [reflexivity | exact Hn].
Defined.

End ApplyMore.

(** ** A stored theme that is no theme *)

Section UnknownTheme.

Variable JSON_parse : string -> outcome string.
Hypothesis JSON_parse_empty : JSON_parse EmptyString = Throw.

Lemma unknown_theme_undefined (theme : string) :
  theme ∉ ThemeName -> theme ∉ Object_prototype ->
  theme <> "surprise" /\ get_property THEMES theme = Undefined.
Proof.
  unfold ThemeName. rewrite !not_elem_of_cons.
  intros (Hl & Hd & Hg & Hs & _) Hproto. split; [done |].
  assert (own_property THEMES theme = None) as Hown.
  { unfold THEMES. cbn [own_property]. by rewrite !decide_False by congruence. }
  unfold get_property. rewrite Hown. by rewrite decide_False.
Qed.

(** X21: a theme name that is none of the four and no member of
    [Object.prototype] makes [applyTheme] throw; and the store does not
    guard against it: a slot whose text parses to such a name gives that name
    as the first theme selection, not the default. *)
Theorem unknown_theme_throws (theme raw : string) random st style :
  theme ∉ ThemeName -> theme ∉ Object_prototype ->
  applyTheme theme random st style = Throw /\
  (getItem st "launcher.theme" = Some raw -> JSON_parse raw = Return theme ->
   usePersistentState_initial JSON_parse st "launcher.theme" "dark" = Return theme).
Proof.
  intros Hname Hproto.
  destruct (unknown_theme_undefined theme Hname Hproto) as [Hs Hu].
  split.
  - unfold applyTheme. rewrite decide_False by done. by rewrite Hu.
  - intros Hraw Hp. by rewrite (initial_present JSON_parse JSON_parse_empty _ _ _ raw), Hp.
Qed.

End UnknownTheme.

Lemma unknown_theme_throws_witness :
  applyTheme "blue" (1 # 2) blue_store ∅ = Throw /\
  usePersistentState_initial JSON_parse_string blue_store "launcher.theme" "dark"
    = Return "blue".
Proof.
  destruct (unknown_theme_throws JSON_parse_string eq_refl "blue" (quoted "blue")
              (1 # 2) blue_store ∅) as [Ht Hi].
  - apply (bool_decide_unpack _). vm_compute. exact I.
  - apply (bool_decide_unpack _). vm_compute. exact I.
  - split; [exact Ht | apply Hi; reflexivity].
Defined.

(** ** More on the persistent store *)

Section StoreMore.

Context {T : Type}.
Variable JSON_stringify : T -> outcome (option string).

Implicit Types (st : Storage) (key : string) (value : T).

Lemma effect_cases st key value :
  usePersistentState_effect JSON_stringify st key value = Return st \/
  exists (text : option string) st',
    JSON_stringify value = Return text /\
    setItem st key (String_of text) = Return st' /\
    usePersistentState_effect JSON_stringify st key value = Return st'.
Proof.
  unfold usePersistentState_effect.
  destruct (JSON_stringify value) as [text|] eqn:Hs; cbn [bind try_catch]; [| by left].
  destruct (setItem st key (String_of text)) as [st'|] eqn:Hw; cbn [try_catch]; [| by left].
  right. by exists text, st'.
Qed.

(** X22: the effect always returns; it leaves every other slot as it was,
    and the slot of its key holds afterwards either the text of the value
    or what it held before. *)
Theorem effect_frame st key value :
  exists st',
    usePersistentState_effect JSON_stringify st key value = Return st' /\
    (forall key' : string, key' <> key -> getItem st' key' = getItem st key') /\
    (getItem st' key = getItem st key \/
     exists text : option string,
       JSON_stringify value = Return text /\ getItem st' key = Some (String_of text)).
Proof.
  destruct (effect_cases st key value) as [H | (text & st' & Hs & Hw & H)].
  - exists st. split; [done |]. split; [done | by left].
  - exists st'. split; [done |]. split.
    + intros key' Hne. by eapply getItem_setItem_ne.
    + right. exists text. split; [done | by eapply getItem_setItem].
Qed.

(** X23: running the effect a second time with the same value changes
    nothing: it returns the storage the first run returned. *)
Theorem effect_again st st' key value :
  usePersistentState_effect JSON_stringify st key value = Return st' ->
  usePersistentState_effect JSON_stringify st' key value = Return st'.
Proof.
  intros H1.
  destruct (effect_cases st key value) as [H | (text & st1 & Hs & Hw & H)];
    rewrite H in H1; injection H1 as <-; [done |].
  unfold usePersistentState_effect. rewrite Hs. cbn [bind].
  rewrite (setItem_same st1 key (String_of text)); [done | |].
  - by eapply setItem_within_quota.
  - by eapply getItem_setItem.
Qed.

End StoreMore.

Lemma effect_again_witness :
  exists st',
    usePersistentState_effect JSON_stringify_string empty_store "launcher.theme" "grafit"
      = Return st' /\
    usePersistentState_effect JSON_stringify_string st' "launcher.theme" "grafit"
      = Return st'.
Proof.
  eexists. split; [reflexivity |].
  exact (effect_again JSON_stringify_string empty_store _ "launcher.theme" "grafit" eq_refl).
Defined.

(** ** The period of the theme cycle *)

Section Period.

(** From each of the four themes, four steps of the cycle lead back
    to it and one, two or three steps do not; from any text at all one step
    leads into the cycle. *)
Theorem next_period (s : string) :
  (s ∈ ThemeName ->
   iterate 4 next s = s /\ iterate 1 next s <> s /\
   iterate 2 next s <> s /\ iterate 3 next s <> s) /\
  iterate 5 next s = next s.
Proof.
  split.
  - unfold ThemeName. rewrite !elem_of_cons, elem_of_nil.
    intros [-> | [-> | [-> | [-> | []]]]]; repeat split; done.
  - pose proof (next_ThemeName s) as H. simpl.
    unfold ThemeName in H. rewrite !elem_of_cons, elem_of_nil in H.
    destruct H as [-> | [-> | [-> | [-> | []]]]]; reflexivity.
Qed.

Lemma next_period_witness : iterate 4 next "grafit" = "grafit".
Proof.
  apply (proj1 (next_period "grafit")). unfold ThemeName. set_solver.
Defined.

End Period.
